(** * Shut The Box: a model of [stb.py] and its checked properties

    The program plays the dice game Shut The Box on the board 1..9 with
    digital scoring, many times over, and prints summary statistics.

    The development follows the script top-down:
    - Python values: sets of integers are [gset Z], lists are [list],
      integers are [Z]; an exception is an [exn] carried by [result];
    - the random module is an oracle: the stream of raw draws the
      generator is going to produce, consumed one draw per call;
    - [while] loops take fuel, and a loop that runs out of it yields
      [Diverge]: termination is proved, not assumed. *)

From Stdlib Require Import ZArith QArith Reals Lra.
From stdpp Require Import strings gmap sets sorting numbers list.

Set Warnings "-clear-no-such-hyp".

Local Open Scope Z_scope.

(** ** Python runtime: exceptions and results *)

Inductive exn : Set :=
  | AssertionError
  | IndexError
  | ValueError
  | ZeroDivisionError.

Inductive result (A : Type) : Type :=
  | Ok (a : A)
  | Raise (e : exn)
  | Diverge.

Arguments Ok {A} a.
Arguments Raise {A} e.
Arguments Diverge {A}.

Definition bind {A B} (r : result A) (k : A → result B) : result B :=
  match r with
  | Ok a => k a
  | Raise e => Raise e
  | Diverge => Diverge
  end.

Notation "x ←! r ; k" := (bind r (λ x, k))
  (at level 20, r at level 100, k at level 200, only parsing, right associativity).
Notation "' p ←! r ; k" := (bind r (λ x, let 'p := x in k))
  (at level 20, p pattern, r at level 100, k at level 200, only parsing,
   right associativity).

#[global] Instance exn_eq_dec : EqDecision exn.
Proof. solve_decision. Defined.

(** ** Python runtime: the random module

    A generator is the stream of raw values it will deliver.  Each call
    consumes the head of the stream; [randbelow n] reduces it into
    [0..n-1], which is all that [randrange] and [choice] rely on. *)

Definition rng : Type := nat → Z.

Definition randbelow (n : Z) (g : rng) : Z * rng :=
  (g 0%nat `mod` n, λ i, g (S i)).

(** [random.randrange(a, b)] *)
Definition randrange (a b : Z) (g : rng) : Z * rng :=
  let '(r, g') := randbelow (b - a) g in (a + r, g').

(** [random.choice(seq)]: IndexError on an empty sequence. *)
Definition choice {A} (seq : list A) (g : rng) : result (A * rng) :=
  let '(i, g') := randbelow (Z.of_nat (length seq)) g in
  match seq !! Z.to_nat i with
  | Some x => Ok (x, g')
  | None => Raise IndexError
  end.

(** A generator that replays the given raw draws and then yields zeros. *)
Definition replay (draws : list Z) : rng := λ i, default 0 (draws !! i).

(** ** Python runtime: builtins on sets and lists *)

(** [sorted(list(s))] for a set of integers. *)
Definition sorted (s : gset Z) : list Z := merge_sort Z.le (elements s).

(** [sorted(list(s), reverse=True)] *)
Definition sorted_rev (s : gset Z) : list Z :=
  merge_sort (flip Z.le) (elements s).

(** [min(s)] for a set of naturals: ValueError on the empty set. *)
Definition py_min (s : gset nat) : result nat :=
  match elements s with
  | [] => Raise ValueError
  | x :: l => Ok (foldr Nat.min x l)
  end.

(** [l[i]]: negative indices count from the end, anything else outside
    the list raises IndexError. *)
Definition py_index {A} (l : list A) (i : Z) : result nat :=
  let n := Z.of_nat (length l) in
  if decide (0 ≤ i < n) then Ok (Z.to_nat i)
  else if decide (- n ≤ i < 0) then Ok (Z.to_nat (n + i))
  else Raise IndexError.

Definition py_getitem {A} (l : list A) (i : Z) : result A :=
  k ←! py_index l i;
  match l !! k with
  | Some x => Ok x
  | None => Raise IndexError
  end.

(** [l[i] += 1] *)
Definition py_incr (l : list Z) (i : Z) : result (list Z) :=
  k ←! py_index l i;
  match l !! k with
  | Some x => Ok (<[k := x + 1]> l)
  | None => Raise IndexError
  end.

(** [a <= b] on tuples of integers: lexicographic, a proper prefix being
    smaller. *)
Fixpoint tuple_le (a b : list Z) : bool :=
  match a, b with
  | [], _ => true
  | _ :: _, [] => false
  | x :: a', y :: b' =>
      if decide (x < y) then true
      else if decide (y < x) then false
      else tuple_le a' b'
  end.

(** [a >= b] on tuples, the order of [sorted(..., reverse=True)]. *)
Definition tuple_ge (a b : list Z) : bool := tuple_le b a.

(** ** The board *)

(** [set(range(1, 10))] *)
Definition board : gset Z := list_to_set [1; 2; 3; 4; 5; 6; 7; 8; 9].

(** ** [calc_score] *)

Definition calc_score (cur : gset Z) : Z :=
  let digits := sorted cur in
  fold_left (λ t d, t * 10 + d) digits 0.

(** *** Positional notation *)

(** The value of a digit sequence read in base 10, most significant
    digit first. *)
Fixpoint of_digits (l : list Z) : Z :=
  match l with
  | [] => 0
  | d :: l' => d * 10 ^ Z.of_nat (length l') + of_digits l'
  end.

(** The decimal expansion of a number, most significant digit first;
    the expansion of 0 is empty. *)
Fixpoint to_digits_aux (fuel : nat) (n : Z) (acc : list Z) : list Z :=
  match fuel with
  | O => acc
  | S fuel' =>
      if decide (n ≤ 0) then acc
      else to_digits_aux fuel' (n `div` 10) (n `mod` 10 :: acc)
  end.

Definition to_digits (n : Z) : list Z :=
  to_digits_aux (S (Z.to_nat (Z.log2 n))) n [].

(** [sum(s)] for a set of integers. *)
Definition set_sum (s : gset Z) : Z := foldr Z.add 0 (elements s).

(** ** The module [choices]

    [stb.py] starts with [from choices import *] and calls two functions
    of that module, [choices] and [canon_choices]. *)

Module Choices.

(** Modelled from the spec: the enumeration behind [choices], which the
    specification leaves open beyond being deterministic.  Every subset of
    the digits of [l], one per subsequence of [l], those with the first
    digit before those without. *)
Fixpoint subsets (l : list Z) : list (gset Z) :=
  match l with
  | [] => [∅]
  | d :: l' => ((λ m, {[d]} ∪ m) <$> subsets l') ++ subsets l'
  end.

(** Modelled from the spec: the function [choices] of the module
    [choices], whose file is not among the sources.  The least roll that
    can be selected is 2, and a target below it has no move
    ([moves({1..9}, 1) == []]).  For a target from 2 on the move generator
    enumerates every subset of the available digits, of all sizes from 1
    up to the number of digits, whose sum is the target; the order is
    deterministic, larger digits first. *)
Definition choices (s : gset Z) (t : Z) : list (gset Z) :=
  if decide (t < 2) then []
  else filter (λ m, m ≠ ∅ ∧ set_sum m = t) (subsets (sorted_rev s)).

(** Modelled from the spec: the function [canon_choices] of the module
    [choices], whose file is not among the sources.  With
    [reverse=True] each candidate becomes the sequence of its digits
    sorted in descending order, and the sequences are listed from the
    lexicographically greatest down; without it both orders are
    ascending. *)
Definition canon_choices (cs : list (gset Z)) (reverse : bool)
  : list (list Z) :=
  if reverse then merge_sort tuple_ge (sorted_rev <$> cs)
  else merge_sort tuple_le (sorted <$> cs).

End Choices.

Import Choices.

(** ** The choosers *)

(** A chooser takes the current board and the list of choices; the
    generator is threaded through because [choose_random] draws from it. *)
Definition chooser : Type :=
  gset Z → list (gset Z) → rng → result (gset Z * rng).

Definition choose_random : chooser :=
  λ cur moves g, choice moves g.

Definition choose_heur : chooser :=
  λ cur moves g,
    if decide (0 < length moves)%nat then
      let lens : gset nat := list_to_set (size <$> moves) in
      minl ←! py_min lens;
      let shortmoves := filter (λ m, size m = minl) moves in
      let cmoves := canon_choices shortmoves true in
      c ←! py_getitem cmoves 0;
      Ok (list_to_set c, g)
    else Raise AssertionError.

(** ** [play]

    One event is recorded per iteration of the loop: either the move
    generator had nothing to offer and the loop was left, or the chooser
    was called, with the arguments it got and what came back. *)

Inductive event : Type :=
  | Stuck (cur : gset Z) (roll : Z)
  | Chose (cur : gset Z) (roll : Z) (moves : list (gset Z))
          (picked : result (gset Z)).

(** Roll the dice: [random.randrange(1, 7) + random.randrange(1, 7)]. *)
Definition roll_dice (g : rng) : Z * rng :=
  let '(d1, g1) := randrange 1 7 g in
  let '(d2, g2) := randrange 1 7 g1 in
  (d1 + d2, g2).

(** What a chooser returned, without the generator. *)
Definition picked {A} (r : result (A * rng)) : result A :=
  '(a, _) ←! r; Ok a.

Section Play.

(** The move generator [choices(cur, roll)]. *)
Variable choices : gset Z → Z → list (gset Z).

Fixpoint play_loop (fuel : nat) (choose : chooser) (cur : gset Z) (g : rng)
  : list event * result (gset Z * rng) :=
  if decide (cur = ∅) then ([], Ok (cur, g))
  else
    match fuel with
    | O => ([], Diverge)
    | S fuel' =>
        let '(roll, g2) := roll_dice g in
        let moves := choices cur roll in
        match moves with
        | [] => ([Stuck cur roll], Ok (cur, g2))
        | _ :: _ =>
            match choose cur moves g2 with
            | Ok (move, g3) =>
                let '(tr, r) := play_loop fuel' choose (cur ∖ move) g3 in
                (Chose cur roll moves (Ok move) :: tr, r)
            | Raise e => ([Chose cur roll moves (Raise e)], Raise e)
            | Diverge => ([Chose cur roll moves Diverge], Diverge)
            end
        end
    end.

Definition play (fuel : nat) (choose : chooser) (g : rng)
  : result (Z * rng) :=
  '(cur, g') ←! (play_loop fuel choose board g).2;
  Ok (calc_score cur, g').

(** The events of one game. *)
Definition play_trace (fuel : nat) (choose : chooser) (g : rng)
  : list event :=
  (play_loop fuel choose board g).1.

End Play.

(** The digits a game removed, read off its events. *)
Definition removed (tr : list event) : gset Z :=
  ⋃ (omap (λ ev, match ev with
                 | Chose _ _ _ (Ok move) => Some move
                 | _ => None
                 end) tr).

(** The calls of the chooser in a run: the board and the moves it got. *)
Definition chooser_calls (tr : list event) : list (gset Z * list (gset Z)) :=
  omap (λ ev, match ev with
              | Chose cur _ moves _ => Some (cur, moves)
              | Stuck _ _ => None
              end) tr.

(** ** The statistics *)

Record stats : Type := {
  wins : Z;
  maxs : Z;
  mins : Z;
  tot : Z;
  hist : list Z
}.

Definition nbins : Z := 20.

Definition init_stats : stats :=
  {| wins := 0; maxs := 0; mins := 123456789; tot := 0;
     hist := replicate (Z.to_nat nbins) 0 |}.

(** [floor(log10(n))] for [n >= 1]: one less than the number of digits. *)
Definition ilog10 (n : Z) : Z := Z.of_nat (length (to_digits n)) - 1.

(** [floor(nbins * log10(score + 1) / 9)], taken in exact arithmetic
    and computed on integers: [nbins * log10 n = log10 (n ^ nbins)], and
    the floor of a ninth is the ninth of the floor ([hist_bin_floor] below
    relates it to the real logarithm).  [log10] raises ValueError outside
    its domain. *)
Definition hist_bin (score : Z) : result Z :=
  if decide (score + 1 ≤ 0) then Raise ValueError
  else Ok (ilog10 ((score + 1) ^ nbins) `div` 9).

(** The body of the loop over the games, after the game was played. *)
Definition tally (st : stats) (score : Z) : result stats :=
  let wins' := if decide (score = 0) then wins st + 1 else wins st in
  let mins' := Z.min (mins st) score in
  let maxs' := Z.max (maxs st) score in
  let tot' := tot st + score in
  bin ←! hist_bin score;
  hist' ←! py_incr (hist st) bin;
  Ok {| wins := wins'; maxs := maxs'; mins := mins'; tot := tot';
        hist := hist' |}.

(** What the script reports; [rep_scores] records the score of every
    game, in the order played, to state properties of the run. *)
Record report : Type := {
  rep_wins : Z;
  rep_min : Z;
  rep_max : Z;
  rep_mean : Q;
  rep_hist : list Z;
  rep_scores : list Z
}.

Section Main.

Variable choices : gset Z → Z → list (gset Z).

(** [for _ in range(n)]: play and tally. *)
Fixpoint games (n : nat) (fuel : nat) (choose : chooser) (st : stats)
  (g : rng) : result (stats * rng * list Z) :=
  match n with
  | O => Ok (st, g, [])
  | S n' =>
      '(score, g1) ←! play choices fuel choose g;
      st1 ←! tally st score;
      '(st2, g2, scores) ←! games n' fuel choose st1 g1;
      Ok (st2, g2, score :: scores)
  end.

(** The script from "Set up stats" on.  The script prints the double
    nearest to [tot / ngames]; [rep_mean] is the exact quotient, and what
    is proved of it holds of the quotient before rounding. *)
Definition main (fuel : nat) (choose : chooser) (ngames : Z) (g : rng)
  : result report :=
  '(st, _, scores) ←! games (Z.to_nat ngames) fuel choose init_stats g;
  if decide (ngames = 0) then Raise ZeroDivisionError
  else Ok {| rep_wins := wins st; rep_min := mins st; rep_max := maxs st;
             rep_mean := (inject_Z (tot st) / inject_Z ngames)%Q;
             rep_hist := hist st; rep_scores := scores |}.

End Main.

(** The sum of the counters of a histogram. *)
Definition hist_total (h : list Z) : Z := foldr Z.add 0 h.

(** ** The table of choosers *)

(** [choosers = {"heur" : choose_heur, "random" : choose_random}] *)
Definition choosers : gmap string chooser :=
  {[ "heur" := choose_heur; "random" := choose_random ]}.

(** The option [--chooser]: the parser accepts the keys of the table
    ([None] is its refusal), the default is ["heur"], and the script takes
    [choosers[args.chooser]]. *)
Definition select_chooser (arg : option string) : option chooser :=
  choosers !! default "heur" arg.

(** ** The histogram display *)

(** [10 * hist[b] * nbins // ngames], the number of asterisks of a line. *)
Definition bar_length (ngames count : Z) : result Z :=
  if decide (ngames = 0) then Raise ZeroDivisionError
  else Ok ((10 * count * nbins) `div` ngames).

Fixpoint bar_lengths (ngames : Z) (counts : list Z) : result (list Z) :=
  match counts with
  | [] => Ok []
  | c :: cs =>
      n ←! bar_length ngames c;
      ns ←! bar_lengths ngames cs;
      Ok (n :: ns)
  end.

(** [for b in range(1, len(hist))]: the bars of the lines, in order; the
    label of a line is a float and is left out. *)
Definition histogram_bars (ngames : Z) (h : list Z) : result (list Z) :=
  bar_lengths ngames (drop 1 h).

(** ** Vocabulary of the properties *)

(** A digit of the board. *)
Definition digit (d : Z) : Prop := 1 ≤ d ≤ 9.

(** A move of the list with the fewest digits. *)
Definition min_size (moves : list (gset Z)) (m : gset Z) : Prop :=
  m ∈ moves ∧ ∀ m', m' ∈ moves → (size m ≤ size m')%nat.

(** A move with the fewest digits whose digits, from the largest down,
    come last in the lexicographic order among the moves with the fewest
    digits. *)
Definition heur_best (moves : list (gset Z)) (m : gset Z) : Prop :=
  min_size moves m
  ∧ ∀ m', min_size moves m' → tuple_le (sorted_rev m') (sorted_rev m).

(** A turn that leaves the loop, or takes at least one digit off the
    board. *)
Definition shrinks (ev : event) : Prop :=
  match ev with
  | Stuck _ _ => True
  | Chose cur _ _ (Ok m) => (size (cur ∖ m) < size cur)%nat
  | Chose _ _ _ _ => False
  end.

(** What holds of the statistics after [n] games. *)
Definition stats_inv (n : Z) (st : stats) : Prop :=
  0 ≤ wins st ≤ n
  ∧ 0 ≤ mins st ≤ 123456789
  ∧ 0 ≤ maxs st ≤ 123456789
  ∧ mins st * n ≤ tot st ≤ maxs st * n
  ∧ length (hist st) = Z.to_nat nbins
  ∧ hist_total (hist st) = n.

#[global] Instance result_eq_dec {A} `{EqDecision A} : EqDecision (result A).
Proof. solve_decision. Defined.

#[global] Instance event_eq_dec : EqDecision event.
Proof. solve_decision. Defined.

(** The board and the roll of a turn. *)
Definition event_board (ev : event) : gset Z :=
  match ev with
  | Stuck cur _ => cur
  | Chose cur _ _ _ => cur
  end.

Definition event_roll (ev : event) : Z :=
  match ev with
  | Stuck _ roll => roll
  | Chose _ roll _ _ => roll
  end.

(** The sum of the rolls for which a move was made. *)
Definition rolls_played (tr : list event) : Z :=
  foldr Z.add 0 (omap (λ ev, match ev with
                            | Chose _ roll _ (Ok _) => Some roll
                            | _ => None
                            end) tr).

(** The number of scores that fall in the bin [i]. *)
Definition count_bin (i : nat) (scores : list Z) : Z :=
  Z.of_nat (length (filter (λ s, hist_bin s = Ok (Z.of_nat i)) scores)).

(** The number of scores that are wins. *)
Definition count_wins (scores : list Z) : Z :=
  Z.of_nat (length (filter (λ s, s = 0) scores)).

(** The sum of a list of integers. *)
Definition sum_list_Z (l : list Z) : Z := foldr Z.add 0 l.

(** * Properties *)

(** Closed decidable facts are settled by evaluation. *)
Ltac decide_closed := apply (bool_decide_unpack _); vm_compute; exact I.

(** ** Positional notation *)

Section Digits.

Implicit Types (l : list Z) (d t : Z).

Lemma of_digits_snoc l d : of_digits (l ++ [d]) = 10 * of_digits l + d.
Proof.
  induction l as [|x l IH]; cbn [app of_digits length]; [lia|].
  rewrite IH, length_app, Nat2Z.inj_add, Z.pow_add_r by lia.
  cbn [length]. change (10 ^ Z.of_nat 1) with 10. ring.
Qed.

Lemma fold_left_of_digits l t :
  fold_left (λ t d, t * 10 + d) l t
  = t * 10 ^ Z.of_nat (length l) + of_digits l.
Proof.
  revert t. induction l as [|x l IH]; intros t; cbn [fold_left length of_digits].
  - rewrite Z.pow_0_r. lia.
  - rewrite IH, Nat2Z.inj_succ, Z.pow_succ_r by lia. ring.
Qed.

Lemma of_digits_range l :
  Forall digit l → 0 ≤ of_digits l < 10 ^ Z.of_nat (length l).
Proof.
  induction 1 as [|d l Hd _ IH]; cbn [length of_digits].
  - rewrite Z.pow_0_r. lia.
  - rewrite Nat2Z.inj_succ, Z.pow_succ_r by lia.
    unfold digit in Hd. nia.
Qed.

Lemma of_digits_lower d l :
  Forall digit (d :: l) → 10 ^ Z.of_nat (length l) ≤ of_digits (d :: l).
Proof.
  intros [Hd Hl]%Forall_cons_iff. apply of_digits_range in Hl.
  unfold digit in Hd. simpl. nia.
Qed.

Lemma of_digits_zero l : Forall digit l → of_digits l = 0 → l = [].
Proof.
  destruct l as [|d l]; [done|]. intros Hl Hz.
  apply of_digits_lower in Hl.
  assert (0 < 10 ^ Z.of_nat (length l)) by (apply Z.pow_pos_nonneg; lia).
  lia.
Qed.

Lemma to_digits_aux_done fuel acc : to_digits_aux fuel 0 acc = acc.
Proof. by destruct fuel. Qed.

Lemma to_digits_aux_of_digits l :
  Forall digit l →
  ∀ fuel acc, (length l ≤ fuel)%nat →
    to_digits_aux fuel (of_digits l) acc = l ++ acc.
Proof.
  induction l as [|d l IH] using rev_ind; intros Hl fuel acc Hfuel.
  - apply to_digits_aux_done.
  - apply Forall_app in Hl as [Hl [Hd _]%Forall_cons_iff].
    rewrite length_app in Hfuel. simpl in Hfuel.
    destruct fuel as [|fuel]; [lia|].
    rewrite of_digits_snoc. simpl.
    pose proof (of_digits_range l Hl) as [Hv _]. unfold digit in Hd.
    rewrite decide_False by lia.
    replace ((10 * of_digits l + d) `div` 10) with (of_digits l)
      by (apply Z.div_unique with d; lia).
    replace ((10 * of_digits l + d) `mod` 10) with d
      by (apply Z.mod_unique with (of_digits l); lia).
    rewrite IH by (done || lia). by rewrite <- app_assoc.
Qed.

(** Reading a sequence of board digits and expanding the number again
    gives the sequence back. *)
Lemma to_digits_of_digits l : Forall digit l → to_digits (of_digits l) = l.
Proof.
  intros Hl. unfold to_digits.
  rewrite to_digits_aux_of_digits, app_nil_r; [done..|].
  destruct l as [|d l]; [simpl; lia|].
  apply of_digits_lower in Hl.
  assert (Z.of_nat (length l) ≤ Z.log2 (of_digits (d :: l))).
  { rewrite <- (Z.log2_pow2 (Z.of_nat (length l))) by lia.
    apply Z.log2_le_mono. etrans; [|exact Hl].
    apply Z.pow_le_mono_l. lia. }
  simpl length. lia.
Qed.

Lemma of_digits_inj l1 l2 :
  Forall digit l1 → Forall digit l2 → of_digits l1 = of_digits l2 → l1 = l2.
Proof.
  intros H1 H2 Heq.
  by rewrite <- (to_digits_of_digits l1), <- (to_digits_of_digits l2), Heq.
Qed.

End Digits.

(** ** Sorting a set of digits *)

Section Sorted.

Implicit Types (cur : gset Z) (l : list Z) (d : Z).

Lemma elem_of_board d : d ∈ board ↔ digit d.
Proof.
  unfold board, digit. rewrite elem_of_list_to_set.
  repeat rewrite elem_of_cons. rewrite elem_of_nil. lia.
Qed.

Lemma size_board : size board = 9%nat.
Proof. reflexivity. Qed.

Lemma sorted_perm cur : sorted cur ≡ₚ elements cur.
Proof. apply merge_sort_Permutation. Qed.

Lemma elem_of_sorted cur d : d ∈ sorted cur ↔ d ∈ cur.
Proof. by rewrite sorted_perm, elem_of_elements. Qed.

Lemma length_sorted cur : length (sorted cur) = size cur.
Proof. by rewrite sorted_perm. Qed.

Lemma NoDup_sorted cur : NoDup (sorted cur).
Proof. rewrite sorted_perm. apply NoDup_elements. Qed.

Lemma strictly_sorted l :
  StronglySorted Z.le l → NoDup l → StronglySorted Z.lt l.
Proof.
  induction 1 as [|x l Hl IH Hx]; intros Hnd; [constructor|].
  apply list.NoDup_cons in Hnd as [Hx' Hnd].
  constructor; [by apply IH|].
  apply list.Forall_forall. intros y Hy.
  rewrite list.Forall_forall in Hx.
  assert (x ≠ y) by (by intros ->). specialize (Hx y Hy). lia.
Qed.

Lemma NoDup_strictly_sorted l : StronglySorted Z.lt l → NoDup l.
Proof.
  induction 1 as [|x l Hl IH Hx]; [constructor|].
  apply list.NoDup_cons. split; [|done].
  intros Hin. rewrite list.Forall_forall in Hx. specialize (Hx x Hin). lia.
Qed.

(** The digits of a set in ascending order. *)
Lemma sorted_ascending cur : StronglySorted Z.lt (sorted cur).
Proof.
  apply strictly_sorted; [|apply NoDup_sorted].
  apply StronglySorted_merge_sort; apply _.
Qed.

(** There is one way to write a set in ascending order. *)
Lemma ascending_unique cur l :
  StronglySorted Z.lt l → (∀ d, d ∈ l ↔ d ∈ cur) → l = sorted cur.
Proof.
  intros Hl Hmem.
  apply (StronglySorted_unique_strong Z.lt);
    [lia | done | apply sorted_ascending |].
  apply NoDup_Permutation;
    [by apply NoDup_strictly_sorted | apply NoDup_sorted |].
  intros d. by rewrite Hmem, elem_of_sorted.
Qed.

Lemma sorted_digits cur : cur ⊆ board → Forall digit (sorted cur).
Proof.
  intros Hsub. apply list.Forall_forall. intros d Hd.
  apply elem_of_board, Hsub. by apply elem_of_sorted.
Qed.

Lemma sorted_set cur : list_to_set (sorted cur) = cur.
Proof. apply set_eq. intros d. by rewrite elem_of_list_to_set, elem_of_sorted. Qed.

Lemma calc_score_of_digits cur : calc_score cur = of_digits (sorted cur).
Proof. unfold calc_score. rewrite fold_left_of_digits. lia. Qed.

Lemma calc_score_range cur :
  cur ⊆ board → 0 ≤ calc_score cur < 10 ^ Z.of_nat (size cur).
Proof.
  intros Hsub. rewrite calc_score_of_digits, <- length_sorted.
  by apply of_digits_range, sorted_digits.
Qed.

Lemma calc_score_bounds cur : cur ⊆ board → 0 ≤ calc_score cur ≤ 123456789.
Proof.
  intros Hsub. pose proof (calc_score_range cur Hsub) as [H0 Hlt].
  split; [done|].
  pose proof (subseteq_size _ _ Hsub) as Hsz. rewrite size_board in Hsz.
  destruct (decide (size cur = 9%nat)) as [H9|H9].
  - assert (cur = board) as ->
      by (apply set_subseteq_size_eq; [done | rewrite size_board; lia]).
    by vm_compute.
  - assert (10 ^ Z.of_nat (size cur) ≤ 10 ^ 8)
      by (apply Z.pow_le_mono_r; lia).
    lia.
Qed.

Lemma calc_score_inj cur1 cur2 :
  cur1 ⊆ board → cur2 ⊆ board →
  calc_score cur1 = calc_score cur2 → cur1 = cur2.
Proof.
  intros H1 H2 Heq. rewrite !calc_score_of_digits in Heq.
  apply of_digits_inj in Heq; [|by apply sorted_digits..].
  by rewrite <- (sorted_set cur1), <- (sorted_set cur2), Heq.
Qed.

Lemma calc_score_zero cur : cur ⊆ board → calc_score cur = 0 ↔ cur = ∅.
Proof.
  intros Hsub. split; [|by intros ->].
  rewrite calc_score_of_digits. intros Hz.
  apply of_digits_zero in Hz; [|by apply sorted_digits].
  rewrite <- (sorted_set cur), Hz. done.
Qed.

End Sorted.

(** ** The digital score *)

(** C1. For a set of digits of the board, [calc_score] is the number whose
    decimal notation is the digits of the set written in ascending order:
    for the ascending listing [l] of the set, the score is the base-10
    value of [l] and its decimal expansion is [l] itself.  In particular
    the empty set scores 0, the full board 123456789, {9} scores 9 and
    {1,9} scores 19 (and not the sum 10). *)
Theorem calc_score_concatenates :
  (∀ (cur : gset Z) (l : list Z),
     cur ⊆ board → StronglySorted Z.lt l → (∀ d, d ∈ l ↔ d ∈ cur) →
     calc_score cur = of_digits l ∧ to_digits (calc_score cur) = l)
  ∧ calc_score ∅ = 0
  ∧ calc_score board = 123456789
  ∧ calc_score {[ 9 ]} = 9
  ∧ calc_score {[ 1; 9 ]} = 19.
Proof.
  split; [|by vm_compute].
  intros cur l Hsub Hl Hmem.
  rewrite (ascending_unique cur l Hl Hmem), calc_score_of_digits.
  split; [done|]. by apply to_digits_of_digits, sorted_digits.
Qed.

Lemma calc_score_concatenates_witness :
  calc_score {[ 2; 5; 9 ]} = of_digits [2; 5; 9]
  ∧ to_digits (calc_score {[ 2; 5; 9 ]}) = [2; 5; 9].
Proof.
  apply (proj1 calc_score_concatenates).
  - decide_closed.
  - repeat constructor.
  - intros d. rewrite <- (elem_of_list_to_set (C := gset Z)).
    by replace (list_to_set [2; 5; 9] : gset Z) with ({[ 2; 5; 9 ]} : gset Z)
      by decide_closed.
Defined.

(** C10. On the subsets of the board [calc_score] is injective, its value
    lies between 0 and 123456789, and it is 0 for the empty set only. *)
Theorem calc_score_injective (A B : gset Z) :
  A ⊆ board → B ⊆ board →
  (A ≠ B → calc_score A ≠ calc_score B)
  ∧ 0 ≤ calc_score A ≤ 123456789
  ∧ (calc_score A = 0 ↔ A = ∅).
Proof.
  intros HA HB. split; [|split].
  - intros Hne Heq. by apply Hne, calc_score_inj.
  - by apply calc_score_bounds.
  - by apply calc_score_zero.
Qed.

Lemma calc_score_injective_witness :
  (({[ 1; 2 ]} : gset Z) ≠ {[ 3 ]} → calc_score {[ 1; 2 ]} ≠ calc_score {[ 3 ]})
  ∧ 0 ≤ calc_score {[ 1; 2 ]} ≤ 123456789
  ∧ (calc_score {[ 1; 2 ]} = 0 ↔ ({[ 1; 2 ]} : gset Z) = ∅).
Proof.
  apply (calc_score_injective {[ 1; 2 ]} {[ 3 ]}); decide_closed.
Defined.

(** ** The move generator *)

Section Generator.

Implicit Types (s m : gset Z) (l : list Z) (t d : Z).

Lemma elem_of_subsets l m : m ∈ subsets l ↔ m ⊆ list_to_set l.
Proof.
  revert m. induction l as [|d l IH]; intros m; cbn [subsets list_to_set].
  - rewrite list_elem_of_singleton. set_solver.
  - rewrite elem_of_app, list_elem_of_fmap. split.
    + intros [(m' & -> & Hm')|Hm].
      * apply IH in Hm'. set_solver.
      * apply IH in Hm. set_solver.
    + intros Hm. destruct (decide (d ∈ m)) as [Hd|Hd].
      * left. exists (m ∖ {[ d ]}). split.
        -- apply set_eq. intros x. rewrite elem_of_union, elem_of_difference,
             elem_of_singleton. destruct (decide (x = d)); naive_solver.
        -- apply IH. set_solver.
      * right. apply IH. set_solver.
Qed.

Lemma NoDup_subsets l : NoDup l → NoDup (subsets l).
Proof.
  induction 1 as [|d l Hd Hl IH]; cbn [subsets].
  - apply NoDup_singleton.
  - assert (∀ m, m ∈ subsets l → d ∉ m) as Hfresh.
    { intros m Hm%elem_of_subsets Hdm.
      apply Hd, (elem_of_list_to_set (C := gset Z)). by apply Hm. }
    apply NoDup_app. split; [|split; [|done]].
    + apply NoDup_fmap_2_strong; [|done].
      intros m1 m2 H1%Hfresh H2%Hfresh Heq. set_solver.
    + intros m (m' & -> & _)%list_elem_of_fmap Hm%Hfresh. set_solver.
Qed.

Lemma sorted_rev_perm s : sorted_rev s ≡ₚ elements s.
Proof. apply merge_sort_Permutation. Qed.

Lemma elem_of_sorted_rev s d : d ∈ sorted_rev s ↔ d ∈ s.
Proof. by rewrite sorted_rev_perm, elem_of_elements. Qed.

Lemma sorted_rev_set s : list_to_set (sorted_rev s) = s.
Proof.
  apply set_eq. intros d. by rewrite elem_of_list_to_set, elem_of_sorted_rev.
Qed.

Lemma NoDup_sorted_rev s : NoDup (sorted_rev s).
Proof. rewrite sorted_rev_perm. apply NoDup_elements. Qed.

Lemma set_sum_empty : set_sum ∅ = 0.
Proof. reflexivity. Qed.

(** What the move generator returns, whatever the target. *)
Lemma elem_of_choices s t m :
  m ∈ choices s t ↔ 2 ≤ t ∧ m ⊆ s ∧ m ≠ ∅ ∧ set_sum m = t.
Proof.
  unfold choices. case_decide.
  - rewrite elem_of_nil. split; [done|]. lia.
  - rewrite list_elem_of_filter, elem_of_subsets, sorted_rev_set.
    split; [|tauto]. intros [[Hne Hsum] Hsub]. split; [lia|done].
Qed.

Lemma NoDup_choices s t : NoDup (choices s t).
Proof.
  unfold choices. case_decide; [apply NoDup_nil_2|].
  apply NoDup_filter, NoDup_subsets, NoDup_sorted_rev.
Qed.

Lemma choices_below_2 s t : t < 2 → choices s t = [].
Proof. intros Ht. unfold choices. by rewrite decide_True. Qed.

End Generator.

(** C2.  For every digit set and every roll, which is 2 at least, the
    generator returns exactly the subsets of the digit set whose sum is
    the roll: each move it returns is such a subset, each such subset is
    returned, and none is returned twice.  For the full board, the roll 2
    has the single move {2}; and the target 1, like every target below the
    least roll, has no move. *)
Theorem choices_exact :
  (∀ (D : gset Z) (r : Z),
     2 ≤ r →
     (∀ m, m ∈ choices D r ↔ m ⊆ D ∧ set_sum m = r) ∧ NoDup (choices D r))
  ∧ (∀ (D : gset Z) (t : Z), t < 2 → choices D t = [])
  ∧ choices board 2 = [ {[ 2 ]} ]
  ∧ choices board 1 = [].
Proof.
  split; [|split; [apply choices_below_2|split; decide_closed]].
  intros D r Hr. split; [|apply NoDup_choices].
  intros m. rewrite elem_of_choices. split; [tauto|].
  intros [Hsub Hsum]. split; [done|]. split; [done|]. split; [|done].
  intros ->. rewrite set_sum_empty in Hsum. lia.
Qed.

Lemma choices_exact_witness :
  ((∀ m, m ∈ choices board 9 ↔ m ⊆ board ∧ set_sum m = 9)
   ∧ NoDup (choices board 9))
  ∧ choices board 0 = [].
Proof.
  destruct choices_exact as (Hexact & Hbelow & _).
  split; [apply (Hexact board 9); lia | apply (Hbelow board 0); lia].
Defined.

(** ** The order on tuples *)

Section Tuples.

Implicit Types a b c : list Z.

Lemma tuple_le_refl a : tuple_le a a.
Proof. induction a as [|x a IH]; simpl; [done|]. by repeat case_decide. Qed.

Lemma tuple_le_trans a b c : tuple_le a b → tuple_le b c → tuple_le a c.
Proof.
  revert b c. induction a as [|x a IH]; intros [|y b] [|z c]; simpl;
    try done.
  repeat case_decide; try done; try lia. apply IH.
Qed.

Lemma tuple_le_total a b : tuple_le a b ∨ tuple_le b a.
Proof.
  revert b. induction a as [|x a IH]; intros [|y b]; simpl; auto.
  repeat case_decide; auto; lia.
Qed.

Lemma tuple_le_antisym a b : tuple_le a b → tuple_le b a → a = b.
Proof.
  revert b. induction a as [|x a IH]; intros [|y b]; simpl; try done.
  repeat case_decide; try done; try lia.
  intros Hab Hba. f_equal; [lia | by apply IH].
Qed.

(** [tuple_le] is the lexicographic order: [a] is below [b] when [a] is
    a prefix of [b], or when the first place where they differ holds
    the smaller number in [a]. *)
Lemma tuple_le_lexicographic a b :
  tuple_le a b ↔
  (∃ c, b = a ++ c)
  ∨ (∃ p x y a' b', a = p ++ x :: a' ∧ b = p ++ y :: b' ∧ x < y).
Proof.
  revert b. induction a as [|x a IH]; intros b.
  - simpl. split; [intros _; left; by exists b | done].
  - destruct b as [|y b]; simpl.
    + split; [done|]. intros [[c Hc]|(p & ? & ? & ? & ? & _ & Hb & _)].
      * done.
      * by destruct p.
    + repeat case_decide.
      * split; [intros _|done]. right. by exists [], x, y, a, b.
      * split; [done|].
        intros [[c [= -> _]]|(p & x' & y' & a' & b' & Ha & Hb & Hlt)];
          [lia|].
        destruct p as [|z p]; simplify_eq/=; lia.
      * assert (x = y) as -> by lia. rewrite IH. split.
        -- intros [[c ->]|(p & x' & y' & a' & b' & -> & -> & Hlt)].
           ++ left. by exists c.
           ++ right. by exists (y :: p), x', y', a', b'.
        -- intros [[c [= ->]]|(p & x' & y' & a' & b' & Ha & Hb & Hlt)].
           ++ left. by exists c.
           ++ destruct p as [|z p]; simplify_eq/=; [lia|].
              right. by exists p, x', y', a', b'.
Qed.

#[local] Instance tuple_ge_trans : Transitive (λ a b, tuple_ge a b : Prop).
Proof. intros a b c Hab Hbc. unfold tuple_ge in *. by eapply tuple_le_trans. Qed.

#[local] Instance tuple_ge_total : Total (λ a b, tuple_ge a b : Prop).
Proof. intros a b. unfold tuple_ge. apply tuple_le_total. Qed.

(** The head of a list sorted from the greatest down is above all the
    listed tuples. *)
Lemma merge_sort_ge_head (l : list (list Z)) c0 cs :
  merge_sort tuple_ge l = c0 :: cs →
  c0 ∈ l ∧ ∀ c, c ∈ l → tuple_le c c0.
Proof.
  intros Hsort.
  pose proof (StronglySorted_merge_sort (λ a b, tuple_ge a b : Prop) l) as Hs.
  pose proof (merge_sort_Permutation (λ a b, tuple_ge a b : Prop) l) as Hp.
  rewrite Hsort in Hs, Hp. split.
  - rewrite <- Hp. apply list_elem_of_here.
  - intros c Hc. rewrite <- Hp in Hc.
    apply StronglySorted_cons in Hs as [Hall _].
    apply elem_of_cons in Hc as [->|Hc]; [apply tuple_le_refl|].
    rewrite list.Forall_forall in Hall. by apply Hall.
Qed.

End Tuples.

(** ** The heuristic chooser *)

Section Heuristic.

Implicit Types (cur m : gset Z) (moves : list (gset Z)) (g : rng).

Lemma foldr_min_least (x : nat) (l : list nat) :
  foldr Nat.min x l ∈ x :: l
  ∧ ∀ k, k ∈ x :: l → (foldr Nat.min x l ≤ k)%nat.
Proof.
  induction l as [|y l [IHin IHle]]; cbn [foldr].
  - split; [apply list_elem_of_here|].
    intros k ->%list_elem_of_singleton. lia.
  - split.
    + destruct (Nat.min_spec y (foldr Nat.min x l)) as [[_ ->]|[_ ->]].
      * apply list_elem_of_further, list_elem_of_here.
      * apply elem_of_cons in IHin as [->|Hin];
          [apply list_elem_of_here | by do 2 apply list_elem_of_further].
    + intros k [->|[->|Hk]%elem_of_cons]%elem_of_cons.
      * etrans; [apply Nat.le_min_r|]. apply IHle, list_elem_of_here.
      * apply Nat.le_min_l.
      * etrans; [apply Nat.le_min_r|]. by apply IHle, list_elem_of_further.
Qed.

Lemma py_min_least (s : gset nat) :
  s ≠ ∅ → ∃ n, py_min s = Ok n ∧ n ∈ s ∧ ∀ k, k ∈ s → (n ≤ k)%nat.
Proof.
  intros Hne. unfold py_min.
  destruct (elements s) as [|x l] eqn:He.
  - by apply elements_empty_inv, leibniz_equiv in He.
  - exists (foldr Nat.min x l). split; [done|].
    pose proof (foldr_min_least x l) as [Hin Hle].
    rewrite <- He in Hin, Hle. setoid_rewrite elem_of_elements in Hle.
    by rewrite elem_of_elements in Hin.
Qed.

Lemma py_getitem_head {A} (x : A) (l : list A) : py_getitem (x :: l) 0 = Ok x.
Proof.
  unfold py_getitem, py_index. cbn [length].
  rewrite decide_True by lia. reflexivity.
Qed.

(** A non-empty list of moves: the heuristic returns a best move and
    leaves the generator alone. *)
Lemma choose_heur_best cur moves g :
  moves ≠ [] → ∃ m, choose_heur cur moves g = Ok (m, g) ∧ heur_best moves m.
Proof.
  intros Hne. unfold choose_heur.
  rewrite decide_True by (destruct moves; [done | simpl; lia]).
  destruct (py_min_least (list_to_set (size <$> moves))) as (minl & -> & Hin & Hle).
  { destruct moves as [|m0 moves]; [done|].
    rewrite fmap_cons, list_to_set_cons. set_solver. }
  apply elem_of_list_to_set, list_elem_of_fmap in Hin as (m1 & -> & Hm1).
  assert (∀ m', m' ∈ moves → (size m1 ≤ size m')%nat) as Hmin.
  { intros m' Hm'. apply Hle, elem_of_list_to_set, list_elem_of_fmap. eauto. }
  cbn [bind canon_choices].
  set (shortmoves := filter (λ m, size m = size m1) moves).
  assert (∀ m, m ∈ shortmoves ↔ m ∈ moves ∧ size m = size m1) as Hshort.
  { intros m. unfold shortmoves. rewrite list_elem_of_filter. tauto. }
  destruct (merge_sort tuple_ge (sorted_rev <$> shortmoves)) as [|c0 cs] eqn:Hs.
  - assert (m1 ∈ shortmoves) as Hin by (by apply Hshort).
    pose proof (merge_sort_Permutation (λ a b, tuple_ge a b : Prop)
                  (sorted_rev <$> shortmoves)) as Hp.
    rewrite Hs in Hp. symmetry in Hp. apply Permutation_nil_r in Hp.
    apply fmap_nil_inv in Hp. rewrite Hp in Hin. by apply not_elem_of_nil in Hin.
  - apply merge_sort_ge_head in Hs as [Hc0 Hmax].
    apply list_elem_of_fmap in Hc0 as (m0 & -> & [Hm0 Hsz]%Hshort).
    rewrite py_getitem_head. cbn [bind]. rewrite sorted_rev_set.
    exists m0. split; [done|]. split; [split|].
    + done.
    + intros m' Hm'. rewrite Hsz. by apply Hmin.
    + intros m' [Hm' Hmin']. apply Hmax, list_elem_of_fmap.
      exists m'. split; [done|]. apply Hshort. split; [done|].
      apply Nat.le_antisymm; [by apply Hmin'|by apply Hmin].
Qed.

(** There is one best move in a list. *)
Lemma heur_best_unique moves m1 m2 :
  heur_best moves m1 → heur_best moves m2 → m1 = m2.
Proof.
  intros [Hs1 Hb1] [Hs2 Hb2].
  rewrite <- (sorted_rev_set m1), <- (sorted_rev_set m2).
  f_equal. apply tuple_le_antisym; auto.
Qed.

Lemma sorted_rev_descending m : StronglySorted (flip Z.lt) (sorted_rev m).
Proof.
  assert (StronglySorted (flip Z.le) (sorted_rev m)) as Hs.
  { apply StronglySorted_merge_sort; [apply _|]. intros x y. unfold flip. lia. }
  pose proof (NoDup_sorted_rev m) as Hnd. revert Hs Hnd.
  generalize (sorted_rev m). clear m.
  induction 1 as [|x l Hl IH Hx]; intros Hnd; [constructor|].
  apply list.NoDup_cons in Hnd as [Hx' Hnd].
  constructor; [by apply IH|].
  apply list.Forall_forall. intros y Hy.
  rewrite list.Forall_forall in Hx.
  assert (x ≠ y) by (by intros ->). specialize (Hx y Hy).
  unfold flip in *. lia.
Qed.

End Heuristic.

(** C3. Given a non-empty list of moves, [choose_heur] returns the move
    that has the fewest digits and, among the moves with the fewest digits,
    the greatest sequence of digits when each move is written from its
    largest digit down and the sequences are compared lexicographically;
    there is one such move.  From [{3},{1,2}] it returns {3}, from
    [{4,5},{3,6}] it returns {3,6}. *)
Theorem choose_heur_fewest_then_greatest :
  (∀ (cur : gset Z) (moves : list (gset Z)) (g : rng),
     moves ≠ [] →
     ∃ m, choose_heur cur moves g = Ok (m, g)
          ∧ heur_best moves m
          ∧ ∀ m', heur_best moves m' → m' = m)
  ∧ (∀ g, choose_heur {[ 1; 2; 3 ]} [ {[ 3 ]}; {[ 1; 2 ]} ] g
          = Ok ({[ 3 ]}, g))
  ∧ (∀ g, choose_heur {[ 3; 4; 5; 6 ]} [ {[ 4; 5 ]}; {[ 3; 6 ]} ] g
          = Ok ({[ 3; 6 ]}, g)).
Proof.
  split; [|split].
  - intros cur moves g Hne.
    destruct (choose_heur_best cur moves g Hne) as (m & Hm & Hbest).
    exists m. split; [done|]. split; [done|].
    intros m' Hm'. by eapply heur_best_unique.
  - intros g. by vm_compute.
  - intros g. by vm_compute.
Qed.

Lemma choose_heur_fewest_then_greatest_witness :
  ∃ m, choose_heur {[ 3; 4; 5; 6 ]} [ {[ 4; 5 ]}; {[ 3; 6 ]} ] (replay [])
       = Ok (m, replay [])
       ∧ heur_best [ {[ 4; 5 ]}; {[ 3; 6 ]} ] m
       ∧ ∀ m', heur_best [ {[ 4; 5 ]}; {[ 3; 6 ]} ] m' → m' = m.
Proof. apply (proj1 choose_heur_fewest_then_greatest). discriminate. Defined.

(** ** The choosers as functions *)

Section Choosers.

Implicit Types (cur m : gset Z) (moves : list (gset Z)) (g : rng).

(** [choose_heur] computes its answer from the board and the moves, and
    hands the generator back as it got it. *)
Lemma choose_heur_pure cur moves g :
  choose_heur cur moves g
  = (m ←! picked (choose_heur cur moves (replay [])); Ok (m, g)).
Proof.
  unfold choose_heur. case_decide; [|done].
  destruct (py_min _); [|done..]. cbn [bind].
  by destruct (py_getitem _ _).
Qed.

(** [choose_random] returns the move at the index the generator draws. *)
Lemma choose_random_draws cur moves g :
  moves ≠ [] →
  ∃ m, moves !! Z.to_nat (g 0%nat `mod` Z.of_nat (length moves)) = Some m
       ∧ choose_random cur moves g = Ok (m, λ i, g (S i)).
Proof.
  intros Hne. unfold choose_random, choice, randbelow.
  assert (0 < Z.of_nat (length moves)) as Hlen
    by (destruct moves; [done | simpl; lia]).
  pose proof (Z.mod_pos_bound (g 0%nat) _ Hlen) as Hi.
  destruct (lookup_lt_is_Some_2 moves
              (Z.to_nat (g 0%nat `mod` Z.of_nat (length moves))))
    as [m Hm]; [lia|].
  exists m. by rewrite Hm.
Qed.

End Choosers.

(** C9, as the choosers behave.  [choose_heur] is a function of its
    arguments: some function of the board and the moves gives its answer,
    whatever the random generator, which it leaves as it found it.
    [choose_random] is a function of its arguments and of the generator:
    from a non-empty list it returns the move at the index the generator
    draws next, and consumes that draw. *)
Theorem choosers_determined :
  (∃ f : gset Z → list (gset Z) → result (gset Z),
     ∀ (cur : gset Z) (moves : list (gset Z)) (g : rng),
       choose_heur cur moves g = (m ←! f cur moves; Ok (m, g)))
  ∧ (∀ (cur : gset Z) (moves : list (gset Z)) (g : rng),
       moves ≠ [] →
       ∃ m, moves !! Z.to_nat (g 0%nat `mod` Z.of_nat (length moves)) = Some m
            ∧ choose_random cur moves g = Ok (m, λ i, g (S i))).
Proof.
  split.
  - exists (λ cur moves, picked (choose_heur cur moves (replay []))).
    apply choose_heur_pure.
  - apply choose_random_draws.
Qed.

Lemma choosers_determined_witness :
  ∃ m, [ ({[ 3 ]} : gset Z); {[ 1; 2 ]} ]
         !! Z.to_nat (replay [1] 0%nat `mod` Z.of_nat 2) = Some m
       ∧ choose_random {[ 1; 2; 3 ]} [ {[ 3 ]}; {[ 1; 2 ]} ] (replay [1])
         = Ok (m, λ i, replay [1] (S i)).
Proof.
  apply (proj2 choosers_determined
           {[ 1; 2; 3 ]} [ {[ 3 ]}; {[ 1; 2 ]} ] (replay [1])).
  discriminate.
Defined.

(** C9, as the claim has it: two calls of [choose_random] with the same
    board and the same two moves, one returning the first move and one
    the second. *)
Lemma choose_random_two_answers :
  picked (choose_random {[ 1; 2; 3 ]} [ {[ 3 ]}; {[ 1; 2 ]} ] (replay [0]))
  ≠ picked (choose_random {[ 1; 2; 3 ]} [ {[ 3 ]}; {[ 1; 2 ]} ] (replay [1])).
Proof. vm_compute. discriminate. Qed.

(** ** One game *)

Section Game.

Variable choices : gset Z → Z → list (gset Z).

Implicit Types (choose : chooser) (cur m : gset Z) (g : rng)
  (tr : list event).

Lemma removed_nil : removed [] = ∅.
Proof. reflexivity. Qed.

Lemma removed_stuck cur roll tr : removed (Stuck cur roll :: tr) = removed tr.
Proof. reflexivity. Qed.

Lemma removed_chose cur roll moves m tr :
  removed (Chose cur roll moves (Ok m) :: tr) = m ∪ removed tr.
Proof. reflexivity. Qed.

(** One unfolding of the loop on a board with digits left. *)
Lemma play_loop_step fuel choose cur g :
  cur ≠ ∅ →
  play_loop choices (S fuel) choose cur g =
    let moves := choices cur (roll_dice g).1 in
    match moves with
    | [] => ([Stuck cur (roll_dice g).1], Ok (cur, (roll_dice g).2))
    | _ :: _ =>
        match choose cur moves (roll_dice g).2 with
        | Ok (move, g3) =>
            (Chose cur (roll_dice g).1 moves (Ok move)
               :: (play_loop choices fuel choose (cur ∖ move) g3).1,
             (play_loop choices fuel choose (cur ∖ move) g3).2)
        | Raise e => ([Chose cur (roll_dice g).1 moves (Raise e)], Raise e)
        | Diverge => ([Chose cur (roll_dice g).1 moves Diverge], Diverge)
        end
    end.
Proof.
  intros Hne. cbn [play_loop]. rewrite decide_False by done.
  destruct (roll_dice g) as [roll g2]. cbn [fst snd].
  destruct (choices cur roll) as [|m0 ms]; [done|].
  destruct (choose cur (m0 :: ms) g2) as [[move g3]| |]; [|done..].
  by destruct (play_loop choices fuel choose (cur ∖ move) g3).
Qed.

Lemma play_loop_empty fuel choose g :
  play_loop choices fuel choose ∅ g = ([], Ok (∅, g)).
Proof. by destruct fuel. Qed.

Lemma play_loop_no_fuel choose cur g :
  cur ≠ ∅ → play_loop choices 0 choose cur g = ([], Diverge).
Proof. intros Hne. cbn [play_loop]. by rewrite decide_False. Qed.

(** The loop only removes digits: what is left is the board it started
    from without the moves that were chosen. *)
Lemma play_loop_removes fuel choose cur g cur' g' :
  (play_loop choices fuel choose cur g).2 = Ok (cur', g') →
  cur' = cur ∖ removed (play_loop choices fuel choose cur g).1.
Proof.
  revert cur g. induction fuel as [|fuel IH]; intros cur g.
  - destruct (decide (cur = ∅)) as [->|Hne].
    + rewrite play_loop_empty. cbn. intros [= <- <-]. set_solver.
    + by rewrite play_loop_no_fuel.
  - destruct (decide (cur = ∅)) as [->|Hne].
    { rewrite play_loop_empty. cbn. intros [= <- <-]. set_solver. }
    rewrite play_loop_step by done. cbn zeta.
    destruct (choices cur _) as [|m0 ms].
    { cbn. intros [= <- <-]. set_solver. }
    destruct (choose cur (m0 :: ms) _) as [[move g3]| |]; [|done..].
    cbn [fst snd]. intros Hok%IH. rewrite removed_chose, Hok. set_solver.
Qed.

(** The events of a game: the chooser is called with what the move
    generator returned, which was not empty; the game is stuck where the
    move generator returned nothing, and that ends it. *)
Lemma play_loop_events fuel choose cur g :
  let tr := (play_loop choices fuel choose cur g).1 in
  (∀ cur0 roll moves r,
     Chose cur0 roll moves r ∈ tr → moves = choices cur0 roll ∧ moves ≠ [])
  ∧ (∀ tr1 cur0 roll tr2,
       tr = tr1 ++ Stuck cur0 roll :: tr2 →
       choices cur0 roll = [] ∧ tr2 = []).
Proof.
  revert cur g. induction fuel as [|fuel IH]; intros cur g.
  - cbn [play_loop]. case_decide; cbn [fst].
    + split; [by intros ???? ?%not_elem_of_nil | by intros [] ??? [=]].
    + split; [by intros ???? ?%not_elem_of_nil | by intros [] ??? [=]].
  - destruct (decide (cur = ∅)) as [->|Hne].
    { rewrite play_loop_empty. cbn [fst].
      split; [by intros ???? ?%not_elem_of_nil | by intros [] ??? [=]]. }
    rewrite play_loop_step by done. cbn zeta.
    destruct (choices cur _) as [|m0 ms] eqn:Hmoves.
    { cbn [fst]. split.
      - by intros ???? [=]%list_elem_of_singleton.
      - intros [|ev [|??]] ??? [=]; by simplify_eq. }
    assert (∀ r tr, (∀ cur0 roll moves r0,
               Chose cur0 roll moves r0 ∈ tr →
               moves = choices cur0 roll ∧ moves ≠ []) →
            ∀ cur0 roll moves r0,
               Chose cur0 roll moves r0
                 ∈ Chose cur (roll_dice g).1 (m0 :: ms) r :: tr →
               moves = choices cur0 roll ∧ moves ≠ []) as Hcons.
    { intros r tr Htr cur0 roll moves r0 [[=]|Hin]%elem_of_cons;
        [by simplify_eq | by eapply Htr]. }
    destruct (choose cur (m0 :: ms) _) as [[move g3]| |]; cbn [fst].
    + destruct (IH (cur ∖ move) g3) as [IH1 IH2]. split.
      * by apply Hcons.
      * intros [|ev tr1] ??? [=]. simplify_eq. by eapply IH2.
    + split; [apply Hcons; by intros ???? ?%not_elem_of_nil|].
      intros [|ev [|??]] ??? [=].
    + split; [apply Hcons; by intros ???? ?%not_elem_of_nil|].
      intros [|ev [|??]] ??? [=].
Qed.

Lemma elem_of_chooser_calls tr cur moves :
  (cur, moves) ∈ chooser_calls tr ↔ ∃ roll r, Chose cur roll moves r ∈ tr.
Proof.
  unfold chooser_calls. rewrite list_elem_of_omap. split.
  - intros ([|cur0 roll moves0 r] & Hin & [=]). subst. eauto.
  - intros (roll & r & Hin). by exists (Chose cur roll moves r).
Qed.

(** With [choose_heur] no call of the chooser fails. *)
Lemma play_loop_heur fuel cur g :
  (∀ cur0 roll moves r,
     Chose cur0 roll moves r ∈ (play_loop choices fuel choose_heur cur g).1 →
     ∃ m, r = Ok m)
  ∧ ∀ e, (play_loop choices fuel choose_heur cur g).2 ≠ Raise e.
Proof.
  revert cur g. induction fuel as [|fuel IH]; intros cur g.
  - cbn [play_loop]. case_decide; cbn [fst snd];
      (split; [by intros ???? ?%not_elem_of_nil | done]).
  - destruct (decide (cur = ∅)) as [->|Hne].
    { rewrite play_loop_empty. cbn [fst snd].
      split; [by intros ???? ?%not_elem_of_nil | done]. }
    rewrite play_loop_step by done. cbn zeta.
    destruct (choices cur _) as [|m0 ms] eqn:Hmoves.
    { cbn [fst snd]. split; [|done].
      by intros ???? [=]%list_elem_of_singleton. }
    destruct (choose_heur_best cur (m0 :: ms) (roll_dice g).2)
      as (m & -> & _); [done|].
    destruct (IH (cur ∖ m) (roll_dice g).2) as [IH1 IH2].
    cbn [fst snd]. split; [|done].
    intros cur0 roll moves r [[=]|Hin]%elem_of_cons; [|by eapply IH1].
    simplify_eq. eauto.
Qed.

End Game.

(** C5. In a game the chooser is called only with a non-empty list of
    moves, the one the move generator has just returned; when the move
    generator returns the empty list the game is over, without a call of
    the chooser.  So in a game played with [choose_heur] no call of the
    chooser fails, and the game does not end in an AssertionError. *)
Theorem chooser_called_with_moves
  (choices : gset Z → Z → list (gset Z)) (fuel : nat) (g : rng) :
  (∀ (choose : chooser) (cur : gset Z) (moves : list (gset Z)),
     (cur, moves) ∈ chooser_calls (play_trace choices fuel choose g) →
     moves ≠ [] ∧ ∃ roll, moves = choices cur roll)
  ∧ (∀ (choose : chooser) tr1 cur roll tr2,
       play_trace choices fuel choose g = tr1 ++ Stuck cur roll :: tr2 →
       choices cur roll = [] ∧ tr2 = [])
  ∧ (∀ cur roll moves,
       Chose cur roll moves (Raise AssertionError)
         ∉ play_trace choices fuel choose_heur g)
  ∧ play choices fuel choose_heur g ≠ Raise AssertionError.
Proof.
  unfold play_trace, play. split; [|split; [|split]].
  - intros choose cur moves (roll & r & Hin)%elem_of_chooser_calls.
    apply (proj1 (play_loop_events choices fuel choose board g)) in Hin
      as [Hgen Hne].
    split; [done|]. by exists roll.
  - intros choose. apply (proj2 (play_loop_events choices fuel choose board g)).
  - intros cur roll moves Hin.
    by apply (proj1 (play_loop_heur choices fuel board g)) in Hin as [m [=]].
  - pose proof (proj2 (play_loop_heur choices fuel board g) AssertionError).
    destruct (play_loop choices fuel choose_heur board g).2 as [[??]| |] eqn:E;
      cbn [bind]; congruence.
Qed.

Lemma chooser_called_with_moves_witness :
  ([ {[ 2 ]} ] : list (gset Z)) ≠ []
  ∧ ∃ roll, [ {[ 2 ]} ] = Choices.choices board roll.
Proof.
  apply (proj1 (chooser_called_with_moves Choices.choices 9 (replay [0; 0]))
           choose_heur board [ {[ 2 ]} ]).
  decide_closed.
Defined.

(** ** Termination of a game *)

Section Termination.

Variable choices : gset Z → Z → list (gset Z).
Variable choose : chooser.

(** Every move on offer is a non-empty subset of the current board. *)
Hypothesis moves_ok :
  ∀ cur roll m, m ∈ choices cur roll → m ≠ ∅ ∧ m ⊆ cur.

(** The chooser picks one of the moves on offer. *)
Hypothesis choose_ok :
  ∀ cur moves g, moves ≠ [] →
    ∃ m g', choose cur moves g = Ok (m, g') ∧ m ∈ moves.

Lemma move_shrinks (cur m : gset Z) :
  m ≠ ∅ → m ⊆ cur → (size (cur ∖ m) < size cur)%nat.
Proof.
  intros Hne Hsub. rewrite size_difference by done.
  assert (size m ≠ 0%nat) by (by intros ?%size_empty_inv%leibniz_equiv).
  pose proof (subseteq_size _ _ Hsub). lia.
Qed.

(** A board of [n] digits is played in at most [n] turns. *)
Lemma play_loop_terminates fuel cur g :
  (size cur ≤ fuel)%nat →
  ∃ cur' g',
    (play_loop choices fuel choose cur g).2 = Ok (cur', g')
    ∧ (length (play_loop choices fuel choose cur g).1 ≤ size cur)%nat
    ∧ Forall shrinks (play_loop choices fuel choose cur g).1.
Proof.
  revert cur g. induction fuel as [|fuel IH]; intros cur g Hsize.
  - assert (cur = ∅) as -> by (apply leibniz_equiv, size_empty_inv; lia).
    rewrite play_loop_empty. exists ∅, g. cbn. split_and!; [done|lia|done].
  - destruct (decide (cur = ∅)) as [->|Hne].
    { rewrite play_loop_empty. exists ∅, g. cbn. split_and!; [done|lia|done]. }
    assert (size cur ≠ 0%nat) by (by intros ?%size_empty_inv%leibniz_equiv).
    rewrite play_loop_step by done. cbn zeta.
    destruct (choices cur _) as [|m0 ms] eqn:Hmoves.
    { eexists _, _. cbn. split_and!; [done|lia|by repeat constructor]. }
    destruct (choose_ok cur (m0 :: ms) (roll_dice g).2)
      as (m & g3 & -> & Hm); [done|].
    rewrite <- Hmoves in Hm. apply moves_ok in Hm as [Hm Hsub].
    pose proof (move_shrinks cur m Hm Hsub) as Hlt.
    destruct (IH (cur ∖ m) g3) as (cur' & g' & Hok & Hlen & Hall); [lia|].
    exists cur', g'. cbn [fst snd length].
    split_and!; [done | lia | by constructor].
Qed.

(** More fuel does not change a game that ended. *)
Lemma play_loop_more_fuel fuel fuel' cur g :
  (fuel ≤ fuel')%nat →
  (play_loop choices fuel choose cur g).2 ≠ Diverge →
  play_loop choices fuel' choose cur g = play_loop choices fuel choose cur g.
Proof.
  revert fuel' cur g. induction fuel as [|fuel IH]; intros fuel' cur g Hle.
  - destruct (decide (cur = ∅)) as [->|Hne].
    + by rewrite !play_loop_empty.
    + by rewrite play_loop_no_fuel.
  - destruct fuel' as [|fuel']; [lia|].
    destruct (decide (cur = ∅)) as [->|Hne]; [by rewrite !play_loop_empty|].
    rewrite !play_loop_step by done. cbn zeta.
    destruct (choices cur _) as [|m0 ms]; [done|].
    destruct (choose cur (m0 :: ms) _) as [[m g3]| |]; [|done..].
    cbn [snd]. intros Hnd. rewrite (IH fuel') by (done || lia). done.
Qed.

Lemma play_terminates_9 fuel g :
  (9 ≤ fuel)%nat →
  ∃ cur' g',
    (length (play_trace choices fuel choose g) ≤ 9)%nat
    ∧ Forall shrinks (play_trace choices fuel choose g)
    ∧ cur' = board ∖ removed (play_trace choices fuel choose g)
    ∧ play choices fuel choose g = Ok (calc_score cur', g')
    ∧ play choices fuel choose g = play choices 9 choose g.
Proof.
  intros Hfuel. unfold play_trace, play.
  destruct (play_loop_terminates 9 board g) as (cur' & g' & Hok & Hlen & Hall);
    [by rewrite size_board|].
  rewrite (play_loop_more_fuel 9 fuel) by (done || by rewrite Hok).
  exists cur', g'. rewrite size_board in Hlen.
  split_and!; [done | done | by eapply play_loop_removes | by rewrite Hok | done].
Qed.

End Termination.

(** C6. Let every move that the move generator offers be a non-empty
    subset of the current board, and let the chooser pick one of the moves
    on offer.  Then a game ends after at most 9 turns, each of which leaves
    the loop or takes at least one digit off the board: 9 units of fuel
    are enough and more fuel changes nothing.  The score is that of the
    digits of 1..9 that no chosen move removed, and its decimal notation is
    those digits in ascending order. *)
Theorem play_terminates
  (choices : gset Z → Z → list (gset Z)) (choose : chooser) :
  (∀ cur roll m, m ∈ choices cur roll → m ≠ ∅ ∧ m ⊆ cur) →
  (∀ cur moves g, moves ≠ [] →
     ∃ m g', choose cur moves g = Ok (m, g') ∧ m ∈ moves) →
  ∀ (fuel : nat) (g : rng),
    (9 ≤ fuel)%nat →
    ∃ (score : Z) (g' : rng) (l : list Z),
      (length (play_trace choices fuel choose g) ≤ 9)%nat
      ∧ Forall shrinks (play_trace choices fuel choose g)
      ∧ play choices fuel choose g = Ok (score, g')
      ∧ play choices 9 choose g = Ok (score, g')
      ∧ StronglySorted Z.lt l
      ∧ (∀ d, d ∈ l ↔
              d ∈ board ∧ d ∉ removed (play_trace choices fuel choose g))
      ∧ score = of_digits l
      ∧ to_digits score = l.
Proof.
  intros moves_ok choose_ok fuel g Hfuel.
  destruct (play_terminates_9 choices choose moves_ok choose_ok fuel g Hfuel)
    as (cur' & g' & Hlen & Hall & Hcur & Hplay & Hfuel9).
  assert (cur' ⊆ board) as Hsub by set_solver.
  exists (calc_score cur'), g', (sorted cur').
  split_and!;
    [done | done | done | by rewrite <- Hfuel9 | apply sorted_ascending | | |].
  - intros d. rewrite elem_of_sorted, Hcur. set_solver.
  - apply calc_score_of_digits.
  - rewrite calc_score_of_digits. by apply to_digits_of_digits, sorted_digits.
Qed.

(** The two choosers of the script, on the moves of the generator. *)
Lemma choices_moves_ok cur roll m :
  m ∈ Choices.choices cur roll → m ≠ ∅ ∧ m ⊆ cur.
Proof. rewrite elem_of_choices. tauto. Qed.

Lemma choose_heur_ok cur moves g :
  moves ≠ [] → ∃ m g', choose_heur cur moves g = Ok (m, g') ∧ m ∈ moves.
Proof.
  intros Hne. destruct (choose_heur_best cur moves g Hne) as (m & Hm & [[Hin _] _]).
  by exists m, g.
Qed.

Lemma choose_random_ok cur moves g :
  moves ≠ [] → ∃ m g', choose_random cur moves g = Ok (m, g') ∧ m ∈ moves.
Proof.
  intros Hne. destruct (choose_random_draws cur moves g Hne) as (m & Hm & Hr).
  exists m, (λ i, g (S i)). split; [done|]. by eapply list_elem_of_lookup_2.
Qed.

Lemma play_terminates_witness :
  ∃ (score : Z) (g' : rng) (l : list Z),
    let g := replay [0; 0; 5; 5; 3; 4] in
    (length (play_trace Choices.choices 12 choose_heur g) ≤ 9)%nat
    ∧ Forall shrinks (play_trace Choices.choices 12 choose_heur g)
    ∧ play Choices.choices 12 choose_heur g = Ok (score, g')
    ∧ play Choices.choices 9 choose_heur g = Ok (score, g')
    ∧ StronglySorted Z.lt l
    ∧ (∀ d, d ∈ l ↔
            d ∈ board
            ∧ d ∉ removed (play_trace Choices.choices 12 choose_heur g))
    ∧ score = of_digits l
    ∧ to_digits score = l.
Proof.
  apply (play_terminates Choices.choices choose_heur
           choices_moves_ok choose_heur_ok 12 (replay [0; 0; 5; 5; 3; 4])).
  lia.
Defined.

(** ** The histogram bin *)

Section Histogram.

Implicit Types (n score b : Z) (st : stats).

Lemma to_digits_aux_length fuel n acc :
  0 < n < 2 ^ Z.of_nat fuel →
  ∃ k : nat,
    length (to_digits_aux fuel n acc) = (S k + length acc)%nat
    ∧ 10 ^ Z.of_nat k ≤ n < 10 ^ Z.of_nat (S k).
Proof.
  revert n acc. induction fuel as [|fuel IH]; intros n acc [Hpos Hlt].
  - change (2 ^ Z.of_nat 0) with 1 in Hlt. lia.
  - cbn [to_digits_aux]. rewrite decide_False by lia.
    rewrite Nat2Z.inj_succ, Z.pow_succ_r in Hlt by lia.
    pose proof (Z.div_mod n 10 ltac:(lia)) as Hdm.
    pose proof (Z.mod_pos_bound n 10 ltac:(lia)) as Hmod.
    destruct (decide (n < 10)) as [Hsmall|Hbig].
    + exists 0%nat. rewrite Z.div_small by lia.
      rewrite to_digits_aux_done. split; [done|].
      change (10 ^ Z.of_nat 0) with 1. change (10 ^ Z.of_nat 1) with 10. lia.
    + destruct (IH (n `div` 10) (n `mod` 10 :: acc)) as (k & Hlen & Hk); [lia|].
      exists (S k). rewrite Hlen. cbn [length]. split; [lia|].
      rewrite (Nat2Z.inj_succ (S k)), (Z.pow_succ_r _ (Z.of_nat (S k))) by lia.
      rewrite (Nat2Z.inj_succ k), (Z.pow_succ_r _ (Z.of_nat k)) in * by lia.
      lia.
Qed.

(** [ilog10 n] is the exponent of the greatest power of 10 up to [n]. *)
Lemma ilog10_spec n :
  0 < n → 0 ≤ ilog10 n ∧ 10 ^ ilog10 n ≤ n < 10 ^ (ilog10 n + 1).
Proof.
  intros Hpos. unfold ilog10, to_digits.
  destruct (to_digits_aux_length (S (Z.to_nat (Z.log2 n))) n []) as (k & -> & Hk).
  { split; [done|]. pose proof (Z.log2_spec n Hpos) as [_ Hlt].
    pose proof (Z.log2_nonneg n).
    by rewrite Nat2Z.inj_succ, Z2Nat.id. }
  cbn [length]. rewrite Nat2Z.inj_succ in Hk.
  replace (Z.of_nat (S k + 0) - 1) with (Z.of_nat k) by lia.
  split; [lia|]. by replace (Z.of_nat k + 1) with (Z.succ (Z.of_nat k)) by lia.
Qed.

(** The bin is the floor of [nbins * log10 (score + 1) / 9]: it is the
    [b] with [10 ^ (9 b) <= (score + 1) ^ nbins < 10 ^ (9 (b + 1))]. *)
Lemma hist_bin_spec score :
  0 ≤ score →
  ∃ b, hist_bin score = Ok b
       ∧ 0 ≤ b
       ∧ 10 ^ (9 * b) ≤ (score + 1) ^ nbins < 10 ^ (9 * (b + 1)).
Proof.
  intros Hscore. unfold hist_bin. rewrite decide_False by lia.
  set (N := (score + 1) ^ nbins).
  assert (0 < N) as HN by (apply Z.pow_pos_nonneg; [lia|done]).
  destruct (ilog10_spec N HN) as (HL & Hlo & Hhi).
  set (L := ilog10 N) in *.
  exists (L `div` 9). split; [done|].
  pose proof (Z.div_mod L 9 ltac:(lia)) as Hdm.
  pose proof (Z.mod_pos_bound L 9 ltac:(lia)) as Hmod.
  split; [lia|]. split.
  - etrans; [|exact Hlo]. apply Z.pow_le_mono_r; lia.
  - eapply Z.lt_le_trans; [exact Hhi|]. apply Z.pow_le_mono_r; lia.
Qed.

(** The scores of the game stay below the bin 18. *)
Lemma hist_bin_score score :
  0 ≤ score ≤ 123456789 →
  ∃ b, hist_bin score = Ok b
       ∧ 0 ≤ b ≤ 17
       ∧ 10 ^ (9 * b) ≤ (score + 1) ^ nbins < 10 ^ (9 * (b + 1)).
Proof.
  intros [H0 Hmax].
  destruct (hist_bin_spec score H0) as (b & Hb & Hb0 & Hlo & Hhi).
  exists b. split_and!; try done.
  destruct (decide (b ≤ 17)) as [|Hbig]; [done|]. exfalso.
  assert (10 ^ (9 * 18) ≤ 10 ^ (9 * b)) by (apply Z.pow_le_mono_r; lia).
  assert ((score + 1) ^ nbins ≤ 123456790 ^ nbins)
    by (apply Z.pow_le_mono_l; lia).
  assert (123456790 ^ nbins < 10 ^ (9 * 18)) by (by vm_compute).
  lia.
Qed.

Lemma py_incr_in_range (l : list Z) b :
  0 ≤ b < Z.of_nat (length l) →
  ∃ x, l !! Z.to_nat b = Some x
       ∧ py_incr l b = Ok (<[Z.to_nat b := x + 1]> l).
Proof.
  intros Hb. unfold py_incr, py_index. rewrite decide_True by done.
  cbn [bind].
  destruct (lookup_lt_is_Some_2 l (Z.to_nat b)) as [x Hx]; [lia|].
  exists x. by rewrite Hx.
Qed.

Lemma py_incr_above (l : list Z) b :
  Z.of_nat (length l) ≤ b → py_incr l b = Raise IndexError.
Proof.
  intros Hb. unfold py_incr, py_index.
  rewrite decide_False by lia. by rewrite decide_False by lia.
Qed.

Lemma hist_total_incr (l : list Z) (k : nat) x :
  l !! k = Some x → hist_total (<[k := x + 1]> l) = hist_total l + 1.
Proof.
  unfold hist_total. revert k.
  induction l as [|y l IH]; intros [|k] Hk; try done.
  - injection Hk as ->.
    change (<[0%nat := x + 1]> (x :: l)) with ((x + 1) :: l).
    cbn [foldr]. lia.
  - change (<[S k := x + 1]> (y :: l)) with (y :: <[k := x + 1]> l).
    cbn [foldr]. rewrite (IH k Hk). lia.
Qed.

(** A tally whose bin is inside the histogram adds one to that bin and
    leaves the other bins alone. *)
Lemma tally_in_range st score b :
  hist_bin score = Ok b → 0 ≤ b < Z.of_nat (length (hist st)) →
  ∃ x, hist st !! Z.to_nat b = Some x
       ∧ tally st score =
           Ok {| wins := if decide (score = 0) then wins st + 1 else wins st;
                 maxs := Z.max (maxs st) score;
                 mins := Z.min (mins st) score;
                 tot := tot st + score;
                 hist := <[Z.to_nat b := x + 1]> (hist st) |}.
Proof.
  intros Hbin Hb. unfold tally. rewrite Hbin. cbn [bind].
  destruct (py_incr_in_range (hist st) b Hb) as (x & Hx & ->).
  by exists x.
Qed.

Lemma tally_above st score b :
  hist_bin score = Ok b → Z.of_nat (length (hist st)) ≤ b →
  tally st score = Raise IndexError.
Proof.
  intros Hbin Hb. unfold tally. rewrite Hbin. cbn [bind].
  by rewrite py_incr_above.
Qed.

End Histogram.

(** ** The bin and the logarithm *)

Section Logarithm.

Implicit Types (a k score b : Z).

Lemma ln_10_pos : (0 < ln 10)%R.
Proof. rewrite <- ln_1. apply ln_increasing; lra. Qed.

Lemma ln_pow_Z a k :
  0 < a → 0 ≤ k → ln (IZR (a ^ k)) = (IZR k * ln (IZR a))%R.
Proof.
  intros Ha Hk. rewrite <- (Z2Nat.id k Hk) at 1.
  rewrite <- pow_IZR, ln_pow by (by apply IZR_lt).
  by rewrite INR_IZR_INZ, Z2Nat.id.
Qed.

Lemma ln_le_Z a b : 0 < a → a ≤ b → (ln (IZR a) <= ln (IZR b))%R.
Proof.
  intros Ha [Hlt| ->]%Z.le_lteq; [|lra].
  left. apply ln_increasing; [by apply (IZR_lt 0)|by apply IZR_lt].
Qed.

(** Over the reals, with [log10 x = ln x / ln 10]: the bin is the floor
    of [nbins * log10 (score + 1) / 9]. *)
Lemma hist_bin_floor score b :
  0 ≤ score → hist_bin score = Ok b →
  (IZR b <= IZR nbins * (ln (IZR (score + 1)) / ln 10) / 9 < IZR b + 1)%R.
Proof.
  intros Hscore Hbin.
  destruct (hist_bin_spec score Hscore) as (b' & Hb' & Hb0 & Hlo & Hhi).
  rewrite Hbin in Hb'. injection Hb' as <-.
  pose proof ln_10_pos as H10.
  assert (0 < 10 ^ (9 * b)) as Hp1 by (apply Z.pow_pos_nonneg; lia).
  assert (0 < (score + 1) ^ nbins) as Hp2
    by (apply Z.pow_pos_nonneg; [lia|done]).
  apply ln_le_Z in Hlo; [|done].
  assert (ln (IZR ((score + 1) ^ nbins))
          < ln (IZR (10 ^ (9 * (b + 1)))))%R as Hhi'
    by (apply ln_increasing; [by apply (IZR_lt 0)|by apply IZR_lt]).
  rewrite !ln_pow_Z in * by (done || lia).
  rewrite mult_IZR in Hlo. rewrite mult_IZR, (plus_IZR b 1) in Hhi'.
  set (x := ln (IZR (score + 1))) in *. set (t := ln 10) in *.
  set (q := (IZR nbins * (x / t) / 9)%R).
  assert (q * (9 * t) = IZR nbins * x)%R as Hq by (unfold q; field; lra).
  split.
  - apply (Rmult_le_reg_r (9 * t)); lra.
  - apply (Rmult_lt_reg_r (9 * t)); lra.
Qed.

End Logarithm.

(** C4, as the script behaves.  The score 123456789 falls in the bin 17,
    and every score from 0 to 123456789 falls in a bin from 0 to 17, the
    floor of [20 * log10 (score + 1) / 9] (the [b] with
    [10 ^ (9 b) <= (score + 1) ^ 20 < 10 ^ (9 (b + 1))]), inside the 20
    slots of the histogram.  The index is not clamped: a tally whose bin is
    20 or more raises IndexError.  A tally whose bin is in 0..19 adds one to
    that bin and to no other. *)
Theorem hist_bin_in_bounds :
  hist_bin 123456789 = Ok 17
  ∧ (∀ score : Z,
       0 ≤ score ≤ 123456789 →
       ∃ b, hist_bin score = Ok b
            ∧ 0 ≤ b ≤ 17
            ∧ 10 ^ (9 * b) ≤ (score + 1) ^ 20 < 10 ^ (9 * (b + 1))
            ∧ (IZR b <= 20 * (ln (IZR (score + 1)) / ln 10) / 9
               < IZR b + 1)%R)
  ∧ (∀ (st : stats) (score b : Z),
       length (hist st) = 20%nat → hist_bin score = Ok b → 20 ≤ b →
       tally st score = Raise IndexError)
  ∧ (∀ (st : stats) (score b : Z),
       length (hist st) = 20%nat → hist_bin score = Ok b → 0 ≤ b < 20 →
       ∃ st', tally st score = Ok st'
              ∧ hist st' !! Z.to_nat b
                = (λ x, x + 1) <$> hist st !! Z.to_nat b
              ∧ ∀ i : nat, i ≠ Z.to_nat b → hist st' !! i = hist st !! i).
Proof.
  split; [by vm_compute|]. split; [|split].
  - intros score Hscore.
    destruct (hist_bin_score score Hscore) as (b & Hbin & Hb & Hpow).
    exists b. split; [done|]. split; [lia|]. split; [done|].
    apply hist_bin_floor; [lia|done].
  - intros st score b Hlen Hbin Hb. apply (tally_above st score b Hbin). lia.
  - intros st score b Hlen Hbin Hb.
    destruct (tally_in_range st score b Hbin) as (x & Hx & ->); [lia|].
    eexists. split; [done|]. cbn [hist]. split.
    + rewrite Hx. apply list_lookup_insert_eq. lia.
    + intros i Hi. by apply list_lookup_insert_ne.
Qed.

Lemma hist_bin_in_bounds_witness :
  (∃ b, hist_bin 259 = Ok b
        ∧ 0 ≤ b ≤ 17
        ∧ 10 ^ (9 * b) ≤ (259 + 1) ^ 20 < 10 ^ (9 * (b + 1))
        ∧ (IZR b <= 20 * (ln (IZR (259 + 1)) / ln 10) / 9 < IZR b + 1)%R)
  ∧ tally init_stats 999999999 = Raise IndexError
  ∧ (∃ st', tally init_stats 259 = Ok st'
            ∧ hist st' !! Z.to_nat 5
              = (λ x, x + 1) <$> hist init_stats !! Z.to_nat 5
            ∧ ∀ i : nat, i ≠ Z.to_nat 5 → hist st' !! i = hist init_stats !! i).
Proof.
  destruct hist_bin_in_bounds as (_ & Hscore & Habove & Hin).
  split; [|split].
  - apply Hscore. lia.
  - apply (Habove init_stats 999999999 20); [reflexivity | by vm_compute | lia].
  - apply (Hin init_stats 259 5); [reflexivity | by vm_compute | lia].
Defined.

(** C4, as the claim has it: the bin of the greatest score is not 20. *)
Lemma hist_bin_max_score_not_20 : hist_bin 123456789 ≠ Ok 20.
Proof. by vm_compute. Qed.

(** ** The statistics of a run *)

Section Run.

Variable choices : gset Z → Z → list (gset Z).

Implicit Types (choose : chooser) (g : rng) (st : stats) (score : Z).

(** Whatever the chooser, a game that ends leaves digits of the board. *)
Lemma play_score_range fuel choose g score g' :
  play choices fuel choose g = Ok (score, g') → 0 ≤ score ≤ 123456789.
Proof.
  unfold play.
  destruct (play_loop choices fuel choose board g).2 as [[cur g1]| |] eqn:E;
    [|done..].
  cbn [bind]. intros [= <- <-]. apply calc_score_bounds.
  apply play_loop_removes in E. set_solver.
Qed.

Lemma stats_inv_init : stats_inv 0 init_stats.
Proof. unfold stats_inv. cbn. split_and!; done || lia. Qed.

Lemma stats_inv_tally n st score :
  0 ≤ n → stats_inv n st → 0 ≤ score ≤ 123456789 →
  ∃ st', tally st score = Ok st' ∧ stats_inv (n + 1) st'.
Proof.
  intros Hn (Hwins & Hmins & Hmaxs & Htot & Hlen & Hsum) Hscore.
  destruct (hist_bin_score score Hscore) as (b & Hbin & Hb & _).
  destruct (tally_in_range st score b Hbin) as (x & Hx & ->).
  { rewrite Hlen. unfold nbins. lia. }
  eexists. split; [done|]. unfold stats_inv. cbn [wins mins maxs tot hist].
  split_and!.
  - case_decide; lia.
  - case_decide; lia.
  - lia.
  - lia.
  - lia.
  - lia.
  - destruct (Z.min_spec (mins st) score) as [[? ->]|[? ->]]; nia.
  - destruct (Z.max_spec (maxs st) score) as [[? ->]|[? ->]]; nia.
  - by rewrite length_insert.
  - rewrite hist_total_incr by done. lia.
Qed.

Lemma games_inv n fuel choose k st g st' g' scores :
  0 ≤ k → stats_inv k st →
  games choices n fuel choose st g = Ok (st', g', scores) →
  stats_inv (k + Z.of_nat n) st'
  ∧ length scores = n
  ∧ Forall (λ s, 0 ≤ s ≤ 123456789) scores.
Proof.
  revert k st g st' g' scores.
  induction n as [|n IH]; intros k st g st' g' scores Hk Hinv; cbn [games].
  - intros [= <- <- <-]. by rewrite Z.add_0_r.
  - destruct (play choices fuel choose g) as [[score g1]| |] eqn:Hplay;
      [|done..].
    cbn [bind]. apply play_score_range in Hplay.
    destruct (stats_inv_tally k st score Hk Hinv Hplay) as (st1 & -> & Hinv1).
    cbn [bind].
    destruct (games choices n fuel choose st1 g1) as [[[st2 g2] scores2]| |]
      eqn:Hgames; [|done..].
    cbn [bind]. intros [= <- <- <-].
    destruct (IH (k + 1) st1 g1 st2 g2 scores2) as (Hinv2 & Hlen & Hall);
      [lia | done | done |].
    split_and!.
    + by replace (k + Z.of_nat (S n)) with (k + 1 + Z.of_nat n) by lia.
    + cbn [length]. by rewrite Hlen.
    + by constructor.
Qed.

(** A run of games that all end reports. *)
Lemma games_total n fuel choose st g k :
  0 ≤ k → stats_inv k st →
  (∀ g0, ∃ score g1, play choices fuel choose g0 = Ok (score, g1)) →
  ∃ st' g' scores, games choices n fuel choose st g = Ok (st', g', scores).
Proof.
  intros Hk Hinv Hplay. revert k st g Hk Hinv.
  induction n as [|n IH]; intros k st g Hk Hinv; cbn [games]; [by eauto|].
  destruct (Hplay g) as (score & g1 & Hg). rewrite Hg. cbn [bind].
  apply play_score_range in Hg.
  destruct (stats_inv_tally k st score Hk Hinv Hg) as (st1 & -> & Hinv1).
  cbn [bind].
  destruct (IH (k + 1) st1 g1) as (st2 & g2 & scores & ->); [lia | done |].
  cbn [bind]. eauto.
Qed.

Lemma main_report fuel choose ngames g rep :
  1 ≤ ngames →
  main choices fuel choose ngames g = Ok rep →
  ∃ st, stats_inv ngames st
        ∧ rep_wins rep = wins st ∧ rep_min rep = mins st
        ∧ rep_max rep = maxs st
        ∧ rep_mean rep = (inject_Z (tot st) / inject_Z ngames)%Q
        ∧ rep_hist rep = hist st
        ∧ Z.of_nat (length (rep_scores rep)) = ngames
        ∧ Forall (λ s, 0 ≤ s ≤ 123456789) (rep_scores rep).
Proof.
  intros Hn. unfold main.
  destruct (games choices _ fuel choose init_stats g)
    as [[[st g'] scores]| |] eqn:Hgames; [|done..].
  cbn [bind]. rewrite decide_False by lia. intros [= <-].
  apply (games_inv _ _ _ 0) in Hgames as (Hinv & Hlen & Hall);
    [|lia|apply stats_inv_init].
  rewrite Z.add_0_l, Z2Nat.id in Hinv by lia.
  exists st. cbn. split_and!; try done. rewrite Hlen. lia.
Qed.

(** A run reports when every game ends: the generator offers non-empty
    subsets of the board and the chooser picks one of the moves on offer. *)
Lemma main_total fuel choose ngames g :
  (∀ cur roll m, m ∈ choices cur roll → m ≠ ∅ ∧ m ⊆ cur) →
  (∀ cur moves g0, moves ≠ [] →
     ∃ m g1, choose cur moves g0 = Ok (m, g1) ∧ m ∈ moves) →
  (9 ≤ fuel)%nat → 1 ≤ ngames →
  ∃ rep, main choices fuel choose ngames g = Ok rep.
Proof.
  intros moves_ok choose_ok Hfuel Hn.
  destruct (games_total (Z.to_nat ngames) fuel choose init_stats g 0)
    as (st & g' & scores & Hgames).
  - lia.
  - apply stats_inv_init.
  - intros g0.
    destruct (play_terminates_9 choices choose moves_ok choose_ok fuel g0 Hfuel)
      as (cur' & g1 & _ & _ & _ & Hplay & _).
    eauto.
  - unfold main. rewrite Hgames. cbn [bind]. rewrite decide_False by lia. eauto.
Qed.

End Run.

(** C7. When a run of at least one game has reported, the minimum, the
    mean and the maximum are in this order between 0 and 123456789, there
    are no more wins than games, and the counters of the histogram add up
    to at most the number of games, to exactly that number if and only if
    the bin of every score was inside the histogram.  And the run does
    report when the move generator offers non-empty subsets of the board
    and the chooser picks one of the moves on offer. *)
Theorem summary_invariants
  (choices : gset Z → Z → list (gset Z)) (fuel : nat) (choose : chooser)
  (ngames : Z) (g : rng) :
  1 ≤ ngames →
  (∀ rep : report,
     main choices fuel choose ngames g = Ok rep →
     0 ≤ rep_min rep
     ∧ (inject_Z (rep_min rep) <= rep_mean rep)%Q
     ∧ (rep_mean rep <= inject_Z (rep_max rep))%Q
     ∧ rep_max rep ≤ 123456789
     ∧ rep_wins rep ≤ ngames
     ∧ hist_total (rep_hist rep) ≤ ngames
     ∧ (hist_total (rep_hist rep) = ngames ↔
        ∀ s, s ∈ rep_scores rep → ∃ b, hist_bin s = Ok b ∧ 0 ≤ b < nbins))
  ∧ ((∀ cur roll m, m ∈ choices cur roll → m ≠ ∅ ∧ m ⊆ cur) →
     (∀ cur moves g0, moves ≠ [] →
        ∃ m g1, choose cur moves g0 = Ok (m, g1) ∧ m ∈ moves) →
     (9 ≤ fuel)%nat →
     ∃ rep, main choices fuel choose ngames g = Ok rep).
Proof.
  intros Hn. split; [|by intros; apply main_total].
  intros rep Hmain.
  destruct (main_report choices fuel choose ngames g rep Hn Hmain)
    as (st & Hinv & -> & -> & -> & -> & -> & Hlen & Hall).
  destruct Hinv as (Hwins & Hmins & Hmaxs & Htot & _ & Hsum).
  assert (0 < inject_Z ngames)%Q as Hpos
    by (rewrite <- (Zlt_Qlt 0); lia).
  split_and!; try lia.
  - apply Qle_shift_div_l; [done|].
    rewrite <- inject_Z_mult, <- Zle_Qle. lia.
  - apply Qle_shift_div_r; [done|].
    rewrite <- inject_Z_mult, <- Zle_Qle. lia.
  - split; [|done]. intros _ s Hs.
    rewrite list.Forall_forall in Hall.
    destruct (hist_bin_score s (Hall s Hs)) as (b & Hb & Hrange & _).
    exists b. unfold nbins. split; [done|lia].
Qed.

Lemma summary_invariants_witness :
  ∃ rep,
    main Choices.choices 9 choose_heur 3
      (replay [0; 0; 5; 5; 3; 4; 2; 2; 2; 2; 2]) = Ok rep
    ∧ 0 ≤ rep_min rep
    ∧ (inject_Z (rep_min rep) <= rep_mean rep)%Q
    ∧ (rep_mean rep <= inject_Z (rep_max rep))%Q
    ∧ rep_max rep ≤ 123456789
    ∧ rep_wins rep ≤ 3
    ∧ hist_total (rep_hist rep) ≤ 3
    ∧ (hist_total (rep_hist rep) = 3 ↔
       ∀ s, s ∈ rep_scores rep → ∃ b, hist_bin s = Ok b ∧ 0 ≤ b < nbins).
Proof.
  destruct (summary_invariants Choices.choices 9 choose_heur 3
              (replay [0; 0; 5; 5; 3; 4; 2; 2; 2; 2; 2]) ltac:(lia))
    as [Hinv Hrep].
  destruct (Hrep choices_moves_ok choose_heur_ok ltac:(lia)) as [rep Hmain].
  exists rep. split; [done|]. by apply Hinv.
Defined.

(** ** Failures *)

Section Failures.

Variable choices : gset Z → Z → list (gset Z).

Implicit Types (choose : chooser) (g : rng) (e : exn).

Lemma board_not_empty : board ≠ ∅.
Proof. decide_closed. Qed.

(** Nothing in [play] catches what the chooser raises. *)
Lemma play_chooser_raises fuel choose g e :
  choices board (roll_dice g).1 ≠ [] →
  choose board (choices board (roll_dice g).1) (roll_dice g).2 = Raise e →
  play choices (S fuel) choose g = Raise e.
Proof.
  intros Hmoves Hraise. unfold play.
  rewrite play_loop_step by apply board_not_empty. cbn zeta.
  destruct (choices board _) as [|m0 ms]; [done|]. by rewrite Hraise.
Qed.

(** Nothing in the script catches what a game raises. *)
Lemma main_game_raises fuel choose ngames g e :
  1 ≤ ngames →
  play choices fuel choose g = Raise e →
  main choices fuel choose ngames g = Raise e.
Proof.
  intros Hn Hplay. unfold main.
  destruct (Z.to_nat ngames) as [|n] eqn:Hnat; [lia|].
  cbn [games]. by rewrite Hplay.
Qed.

End Failures.

(** C8. Called with an empty list of moves, [choose_heur] raises
    AssertionError and returns nothing.  The failure is not caught: when a
    call of the chooser raises an exception in the first turn of the first
    game, the game and the whole run end with that exception. *)
Theorem choose_heur_empty_raises :
  (∀ (cur : gset Z) (g : rng), choose_heur cur [] g = Raise AssertionError)
  ∧ (∀ (choices : gset Z → Z → list (gset Z)) (choose : chooser)
       (fuel : nat) (ngames : Z) (g : rng) (e : exn),
       1 ≤ ngames →
       choices board (roll_dice g).1 ≠ [] →
       choose board (choices board (roll_dice g).1) (roll_dice g).2 = Raise e →
       play choices (S fuel) choose g = Raise e
       ∧ main choices (S fuel) choose ngames g = Raise e).
Proof.
  split; [done|].
  intros choices choose fuel ngames g e Hn Hmoves Hraise.
  pose proof (play_chooser_raises choices fuel choose g e Hmoves Hraise).
  split; [done|]. by apply main_game_raises.
Qed.

Lemma choose_heur_empty_raises_witness :
  let miswired : chooser := λ cur _ g, choose_heur cur [] g in
  play Choices.choices 9 miswired (replay []) = Raise AssertionError
  ∧ main Choices.choices 9 miswired 1 (replay []) = Raise AssertionError.
Proof.
  intros miswired.
  apply (proj2 choose_heur_empty_raises Choices.choices miswired 8%nat 1
           (replay []) AssertionError).
  - lia.
  - by vm_compute.
  - reflexivity.
Defined.

(** ** The script with its own choosers *)

(** With either chooser of the script and the moves of the generator, a
    run of at least one game reports, whatever the dice. *)
Lemma main_reports (choose : chooser) (fuel : nat) (ngames : Z) (g : rng) :
  choose = choose_heur ∨ choose = choose_random →
  (9 ≤ fuel)%nat → 1 ≤ ngames →
  ∃ rep, main Choices.choices fuel choose ngames g = Ok rep.
Proof.
  intros Hchoose Hfuel Hn.
  apply main_total; [apply choices_moves_ok | | done | done].
  destruct Hchoose as [-> | ->];
    [apply choose_heur_ok | apply choose_random_ok].
Qed.

(** * Further properties of the script *)

(** ** The score and the digits left *)

Section ScoreOrder.

Implicit Types (cur m A B : gset Z).

Lemma calc_score_lower cur :
  cur ⊆ board → cur ≠ ∅ → 10 ^ (Z.of_nat (size cur) - 1) ≤ calc_score cur.
Proof.
  intros Hsub Hne. rewrite calc_score_of_digits, <- length_sorted.
  pose proof (sorted_digits cur Hsub) as Hdig.
  destruct (sorted cur) as [|d l] eqn:Hs.
  - exfalso. apply Hne. by rewrite <- (sorted_set cur), Hs.
  - apply of_digits_lower in Hdig. cbn [length].
    by replace (Z.of_nat (S (length l)) - 1) with (Z.of_nat (length l)) by lia.
Qed.

Lemma calc_score_strict A B :
  B ⊆ board → A ⊂ B → calc_score A < calc_score B.
Proof.
  intros HB HAB.
  assert (A ⊆ board) as HA by set_solver.
  assert (B ≠ ∅) as HBne by set_solver.
  pose proof (subset_size _ _ HAB) as Hsize.
  pose proof (calc_score_range A HA) as [_ Hupper].
  pose proof (calc_score_lower B HB HBne) as Hlower.
  assert (10 ^ Z.of_nat (size A) ≤ 10 ^ (Z.of_nat (size B) - 1))
    by (apply Z.pow_le_mono_r; lia).
  lia.
Qed.

End ScoreOrder.

(** X1. Taking digits off the board lowers the score: a proper subset of
    a set of digits of 1..9 scores strictly less, so does the board of a
    turn after a non-empty move on it; and the score has as many decimal
    digits as there are digits left. *)
Theorem removing_digits_lowers_score :
  (∀ A B : gset Z, B ⊆ board → A ⊂ B → calc_score A < calc_score B)
  ∧ (∀ cur m : gset Z,
       cur ⊆ board → m ≠ ∅ → m ⊆ cur →
       calc_score (cur ∖ m) < calc_score cur)
  ∧ (∀ cur : gset Z,
       cur ⊆ board → length (to_digits (calc_score cur)) = size cur).
Proof.
  split; [apply calc_score_strict|]. split.
  - intros cur m Hcur Hm Hsub. apply calc_score_strict; [done|].
    apply set_choose_L in Hm as [x Hx]. set_solver.
  - intros cur Hcur.
    rewrite calc_score_of_digits, to_digits_of_digits by by apply sorted_digits.
    apply length_sorted.
Qed.

Lemma removing_digits_lowers_score_witness :
  calc_score {[ 1; 9 ]} < calc_score {[ 1; 2; 9 ]}
  ∧ calc_score (board ∖ {[ 4; 5 ]}) < calc_score board
  ∧ length (to_digits (calc_score {[ 2; 5; 9 ]})) = size ({[ 2; 5; 9 ]} : gset Z).
Proof.
  destruct removing_digits_lowers_score as (Hsub & Hmove & Hlen).
  split; [|split].
  - apply Hsub; decide_closed.
  - apply Hmove; decide_closed.
  - apply Hlen. decide_closed.
Defined.

(** ** The dice *)

Section Dice.

Implicit Types (g : rng) (choose : chooser).

Lemma roll_dice_range g :
  2 ≤ (roll_dice g).1 ≤ 12 ∧ ∀ i, (roll_dice g).2 i = g (S (S i)).
Proof.
  unfold roll_dice, randrange, randbelow. cbn [fst snd].
  pose proof (Z.mod_pos_bound (g 0%nat) (7 - 1) ltac:(lia)).
  pose proof (Z.mod_pos_bound (g 1%nat) (7 - 1) ltac:(lia)).
  split; [lia|done].
Qed.

Lemma roll_dice_reaches r :
  2 ≤ r ≤ 12 → ∃ g, (roll_dice g).1 = r.
Proof.
  intros Hr. destruct (decide (r ≤ 7)).
  - exists (replay [r - 2; 0]).
    unfold roll_dice, randrange, randbelow, replay. cbn.
    rewrite !Z.mod_small by lia. lia.
  - exists (replay [5; r - 7]).
    unfold roll_dice, randrange, randbelow, replay. cbn.
    rewrite !Z.mod_small by lia. lia.
Qed.

Lemma play_loop_rolls choices fuel choose cur g ev :
  ev ∈ (play_loop choices fuel choose cur g).1 → 2 ≤ event_roll ev ≤ 12.
Proof.
  revert cur g. induction fuel as [|fuel IH]; intros cur g.
  - cbn [play_loop]. case_decide; cbn [fst]; by intros ?%not_elem_of_nil.
  - destruct (decide (cur = ∅)) as [->|Hne].
    { rewrite play_loop_empty. by intros ?%not_elem_of_nil. }
    rewrite play_loop_step by done. cbn zeta.
    pose proof (roll_dice_range g) as [Hroll _].
    destruct (choices cur _) as [|m0 ms].
    { cbn [fst]. by intros ->%list_elem_of_singleton. }
    destruct (choose cur (m0 :: ms) _) as [[move g3]| |]; cbn [fst].
    + intros [->|Hin]%elem_of_cons; [done|]. by eapply IH.
    + by intros ->%list_elem_of_singleton.
    + by intros ->%list_elem_of_singleton.
Qed.

End Dice.

(** X2. A roll of the dice is between 2 and 12 and takes two draws from
    the generator; each of the totals 2..12 comes up for some draws; and
    every roll of a game is between 2 and 12. *)
Theorem rolls_between_2_and_12 :
  (∀ g : rng,
     2 ≤ (roll_dice g).1 ≤ 12 ∧ ∀ i, (roll_dice g).2 i = g (S (S i)))
  ∧ (∀ r : Z, 2 ≤ r ≤ 12 → ∃ g, (roll_dice g).1 = r)
  ∧ (∀ (choices : gset Z → Z → list (gset Z)) (fuel : nat)
       (choose : chooser) (g : rng) (ev : event),
       ev ∈ play_trace choices fuel choose g → 2 ≤ event_roll ev ≤ 12).
Proof.
  split; [apply roll_dice_range|]. split; [apply roll_dice_reaches|].
  intros choices fuel choose g ev. apply play_loop_rolls.
Qed.

Lemma rolls_between_2_and_12_witness :
  (∃ g, (roll_dice g).1 = 12)
  ∧ 2 ≤ event_roll (Stuck (board ∖ {[ 2 ]}) 2) ≤ 12.
Proof.
  destruct rolls_between_2_and_12 as (_ & Hreach & Htrace).
  split; [apply Hreach; lia|].
  apply (Htrace Choices.choices 9%nat choose_heur (replay [0; 0; 0; 0])).
  decide_closed.
Defined.

(** ** The random chooser *)

Section RandomChooser.

Implicit Types (cur m : gset Z) (moves : list (gset Z)) (g : rng).

Lemma choose_random_empty cur g : choose_random cur [] g = Raise IndexError.
Proof. reflexivity. Qed.

Lemma choose_random_reaches cur moves m :
  m ∈ moves → ∃ g, picked (choose_random cur moves g) = Ok m.
Proof.
  intros [i Hi]%list_elem_of_lookup_1.
  pose proof (lookup_lt_Some _ _ _ Hi) as Hlt.
  exists (replay [Z.of_nat i]).
  unfold choose_random, choice, randbelow, replay.
  change (default 0 ([Z.of_nat i] !! 0%nat)) with (Z.of_nat i).
  rewrite Z.mod_small, Nat2Z.id, Hi by lia. reflexivity.
Qed.

End RandomChooser.

(** X3. [choose_random] raises IndexError on an empty list of moves; on a
    non-empty list it returns one of the moves of the list and takes one
    draw from the generator; and each move of the list is returned for
    some state of the generator. *)
Theorem choose_random_picks_a_move :
  (∀ (cur : gset Z) (g : rng), choose_random cur [] g = Raise IndexError)
  ∧ (∀ (cur : gset Z) (moves : list (gset Z)) (g : rng),
       moves ≠ [] →
       ∃ m, choose_random cur moves g = Ok (m, λ i, g (S i)) ∧ m ∈ moves)
  ∧ (∀ (cur : gset Z) (moves : list (gset Z)) (m : gset Z),
       m ∈ moves → ∃ g, picked (choose_random cur moves g) = Ok m).
Proof.
  split; [apply choose_random_empty|]. split; [|apply choose_random_reaches].
  intros cur moves g Hne.
  destruct (choose_random_draws cur moves g Hne) as (m & Hm & Hr).
  exists m. split; [done|]. by eapply list_elem_of_lookup_2.
Qed.

Lemma choose_random_picks_a_move_witness :
  (∃ m, choose_random board [ {[ 4; 5 ]}; {[ 3; 6 ]} ] (replay [7])
        = Ok (m, λ i, replay [7] (S i))
        ∧ m ∈ [ ({[ 4; 5 ]} : gset Z); {[ 3; 6 ]} ])
  ∧ ∃ g, picked (choose_random board [ {[ 4; 5 ]}; {[ 3; 6 ]} ] g)
         = Ok {[ 3; 6 ]}.
Proof.
  destruct choose_random_picks_a_move as (_ & Hin & Hreach).
  split.
  - apply (Hin board [ {[ 4; 5 ]}; {[ 3; 6 ]} ] (replay [7])). discriminate.
  - apply (Hreach board [ {[ 4; 5 ]}; {[ 3; 6 ]} ] {[ 3; 6 ]}). decide_closed.
Defined.

(** ** The heuristic chooser and the list of moves *)

Section HeuristicMoves.

Implicit Types (cur m : gset Z) (moves : list (gset Z)) (g : rng).

Lemma heur_best_ext moves1 moves2 m :
  (∀ m', m' ∈ moves1 ↔ m' ∈ moves2) → heur_best moves1 m → heur_best moves2 m.
Proof.
  intros Hext [[Hin Hmin] Hbest].
  split; [split|].
  - by apply Hext.
  - intros m' Hm'. by apply Hmin, Hext.
  - intros m' [Hin' Hmin']. apply Hbest. split; [by apply Hext|].
    intros m'' Hm''. by apply Hmin', Hext.
Qed.

Lemma set_sum_singleton (x : Z) : set_sum {[ x ]} = x.
Proof. unfold set_sum. rewrite elements_singleton. cbn. lia. Qed.

Lemma heur_best_rolled moves roll :
  {[ roll ]} ∈ moves →
  (∀ m, m ∈ moves → m ≠ ∅ ∧ set_sum m = roll) →
  heur_best moves {[ roll ]}.
Proof.
  intros Hin Hmoves.
  assert (∀ m, m ∈ moves → (1 ≤ size m)%nat) as Hsize.
  { intros m [Hne _]%Hmoves.
    assert (size m ≠ 0%nat) by (by intros ?%size_empty_inv%leibniz_equiv).
    lia. }
  split; [split; [done|]|].
  - intros m' Hm'. rewrite size_singleton. by apply Hsize.
  - intros m' [Hm' Hmin]. specialize (Hmin _ Hin). rewrite size_singleton in Hmin.
    assert (size m' = 1%nat) as Hone by (specialize (Hsize m' Hm'); lia).
    apply size_1_elem_of in Hone as [x Hx%leibniz_equiv].
    apply Hmoves in Hm' as [_ Hsum]. rewrite Hx, set_sum_singleton in Hsum.
    rewrite Hx, Hsum. apply tuple_le_refl.
Qed.

End HeuristicMoves.

(** X4. What [choose_heur] returns depends on which moves are in the
    list, not on their order or on repetitions in it, nor on the board:
    two lists with the same members get the same answer (the ties being
    broken by [canon_choices] as modelled from the specification). *)
Theorem choose_heur_order_free
  (cur1 cur2 : gset Z) (moves1 moves2 : list (gset Z)) (g : rng) :
  (∀ m, m ∈ moves1 ↔ m ∈ moves2) →
  choose_heur cur1 moves1 g = choose_heur cur2 moves2 g.
Proof.
  intros Hext.
  destruct moves1 as [|m1 moves1], moves2 as [|m2 moves2].
  - done.
  - exfalso. eapply not_elem_of_nil, Hext, list_elem_of_here.
  - exfalso. eapply not_elem_of_nil, Hext, list_elem_of_here.
  - destruct (choose_heur_best cur1 (m1 :: moves1) g) as (b1 & -> & Hb1); [done|].
    destruct (choose_heur_best cur2 (m2 :: moves2) g) as (b2 & -> & Hb2); [done|].
    do 2 f_equal. eapply heur_best_unique; [|exact Hb2].
    by eapply heur_best_ext.
Qed.

Lemma choose_heur_order_free_witness :
  choose_heur board [ {[ 4; 5 ]}; {[ 3; 6 ]}; {[ 9 ]} ] (replay [])
  = choose_heur ∅ [ {[ 9 ]}; {[ 3; 6 ]}; {[ 9 ]}; {[ 4; 5 ]} ] (replay []).
Proof.
  apply choose_heur_order_free. intros m.
  rewrite <- !(elem_of_list_to_set (C := gset (gset Z))).
  by replace (list_to_set [ {[ 4; 5 ]}; {[ 3; 6 ]}; {[ 9 ]} ] : gset (gset Z))
    with (list_to_set [ {[ 9 ]}; {[ 3; 6 ]}; {[ 9 ]}; {[ 4; 5 ]} ]
          : gset (gset Z)) by decide_closed.
Defined.

(** X5. When every move of the list is a non-empty set of digits with sum
    the roll, and the single digit equal to the roll is among them,
    [choose_heur] takes that digit alone.  So it does on the moves of the
    generator (as modelled from the specification) whenever the roll, 2 at
    least, is a number still on the board. *)
Theorem choose_heur_takes_rolled_digit :
  (∀ (cur : gset Z) (moves : list (gset Z)) (roll : Z) (g : rng),
     {[ roll ]} ∈ moves →
     (∀ m, m ∈ moves → m ≠ ∅ ∧ set_sum m = roll) →
     choose_heur cur moves g = Ok ({[ roll ]}, g))
  ∧ (∀ (cur : gset Z) (roll : Z) (g : rng),
       2 ≤ roll → roll ∈ cur →
       choose_heur cur (Choices.choices cur roll) g = Ok ({[ roll ]}, g)).
Proof.
  assert (∀ (cur : gset Z) (moves : list (gset Z)) (roll : Z) (g : rng),
            {[ roll ]} ∈ moves →
            (∀ m, m ∈ moves → m ≠ ∅ ∧ set_sum m = roll) →
            choose_heur cur moves g = Ok ({[ roll ]}, g)) as Hgen.
  { intros cur moves roll g Hin Hmoves.
    destruct (choose_heur_best cur moves g) as (b & -> & Hb).
    { intros ->. by apply not_elem_of_nil in Hin. }
    do 2 f_equal. eapply heur_best_unique; [exact Hb|].
    by apply heur_best_rolled. }
  split; [exact Hgen|].
  intros cur roll g Hroll2 Hroll. apply Hgen.
  - apply elem_of_choices. split_and!; [done | set_solver | set_solver |].
    apply set_sum_singleton.
  - intros m Hm%elem_of_choices. tauto.
Qed.

Lemma choose_heur_takes_rolled_digit_witness :
  choose_heur board [ {[ 4; 5 ]}; {[ 9 ]}; {[ 1; 2; 6 ]} ] (replay [])
  = Ok ({[ 9 ]}, replay [])
  ∧ choose_heur board (Choices.choices board 7) (replay [])
    = Ok ({[ 7 ]}, replay []).
Proof.
  destruct choose_heur_takes_rolled_digit as [Hlist Hgen].
  split.
  - apply Hlist; [decide_closed|].
    apply list.Forall_forall. repeat constructor; by vm_compute.
  - apply Hgen; [lia|decide_closed].
Defined.

(** ** How a game runs and ends *)

Section GameTrace.

Variable choices : gset Z → Z → list (gset Z).

Implicit Types (choose : chooser) (cur m : gset Z) (g : rng)
  (tr : list event).

(** The board of a turn is the first board without the moves chosen in
    the turns before. *)
Lemma play_loop_boards fuel choose cur g tr1 ev tr2 :
  (play_loop choices fuel choose cur g).1 = tr1 ++ ev :: tr2 →
  event_board ev = cur ∖ removed tr1.
Proof.
  revert cur g tr1. induction fuel as [|fuel IH]; intros cur g tr1.
  - cbn [play_loop]. case_decide; cbn [fst]; by destruct tr1.
  - destruct (decide (cur = ∅)) as [->|Hne].
    { rewrite play_loop_empty. by destruct tr1. }
    rewrite play_loop_step by done. cbn zeta.
    assert (∀ ev0, event_board ev0 = cur → [ev0] = tr1 ++ ev :: tr2 →
                   event_board ev = cur ∖ removed tr1) as Hone.
    { intros ev0 Hev0 Heq. destruct tr1 as [|? [|??]]; simplify_eq/=.
      rewrite removed_nil. set_solver. }
    destruct (choices cur _) as [|m0 ms]; [by apply Hone|].
    destruct (choose cur (m0 :: ms) _) as [[move g3]| |]; cbn [fst];
      [|by apply Hone..].
    destruct tr1 as [|ev1 tr1]; cbn [app].
    + intros [= <- _]. rewrite removed_nil. cbn. set_solver.
    + intros [= <- Hrest]. apply IH in Hrest.
      rewrite removed_chose, Hrest. set_solver.
Qed.

(** A game that ends has emptied the board, or its last turn found no
    move for what is left. *)
Lemma play_loop_final fuel choose cur g cur' g' :
  (play_loop choices fuel choose cur g).2 = Ok (cur', g') →
  (cur' = ∅
   ∧ ∀ c r, Stuck c r ∉ (play_loop choices fuel choose cur g).1)
  ∨ (cur' ≠ ∅
     ∧ ∃ tr roll,
         (play_loop choices fuel choose cur g).1 = tr ++ [Stuck cur' roll]
         ∧ choices cur' roll = []).
Proof.
  revert cur g. induction fuel as [|fuel IH]; intros cur g.
  - destruct (decide (cur = ∅)) as [->|Hne].
    + rewrite play_loop_empty. cbn. intros [= <- <-]. left.
      split; [done|]. by intros ?? ?%not_elem_of_nil.
    + by rewrite play_loop_no_fuel.
  - destruct (decide (cur = ∅)) as [->|Hne].
    { rewrite play_loop_empty. cbn. intros [= <- <-]. left.
      split; [done|]. by intros ?? ?%not_elem_of_nil. }
    rewrite play_loop_step by done. cbn zeta.
    destruct (choices cur _) as [|m0 ms] eqn:Hmoves.
    { cbn. intros [= <- <-]. right. split; [done|].
      by exists [], (roll_dice g).1. }
    destruct (choose cur (m0 :: ms) _) as [[move g3]| |]; [|done..].
    cbn [fst snd]. intros [[-> Hno]|[Hne' (tr & roll & -> & Hstuck)]]%IH.
    + left. split; [done|].
      intros c r [[=]|Hin]%elem_of_cons. by eapply Hno.
    + right. split; [done|]. by eexists (_ :: tr), roll.
Qed.

(** The score is 0 when the chosen moves cover the board, and then only. *)
Lemma play_score_zero_iff fuel choose g score g' :
  play choices fuel choose g = Ok (score, g') →
  score = 0 ↔ board ⊆ removed (play_trace choices fuel choose g).
Proof.
  unfold play, play_trace.
  destruct (play_loop choices fuel choose board g).2 as [[cur' g1]| |] eqn:E;
    [|done..].
  cbn [bind]. intros [= <- <-].
  pose proof (play_loop_removes choices fuel choose board g cur' g1 E) as Hcur.
  assert (cur' ⊆ board) as Hsub by set_solver.
  rewrite (calc_score_zero cur' Hsub). clear E Hsub. revert Hcur.
  generalize (removed (play_loop choices fuel choose board g).1).
  intros R ->. split.
  - intros Hempty d Hd. destruct (decide (d ∈ R)) as [|Hout]; [done|].
    exfalso. eapply (not_elem_of_empty (C := gset Z) d).
    rewrite <- Hempty. by apply elem_of_difference.
  - intros Hall. apply set_eq. intros d.
    rewrite elem_of_difference, elem_of_empty. naive_solver.
Qed.

End GameTrace.

(** X6. In a game, whatever the move generator and the chooser, the board
    of each turn is the board 1..9 without the moves chosen in the turns
    before it. *)
Theorem turn_board_is_what_is_left
  (choices : gset Z → Z → list (gset Z)) (fuel : nat) (choose : chooser)
  (g : rng) (tr1 tr2 : list event) (ev : event) :
  play_trace choices fuel choose g = tr1 ++ ev :: tr2 →
  event_board ev = board ∖ removed tr1.
Proof. unfold play_trace. apply play_loop_boards. Qed.

Lemma turn_board_is_what_is_left_witness :
  event_board (Stuck (board ∖ {[ 2 ]}) 2)
  = board ∖ removed [Chose board 2 [ {[ 2 ]} ] (Ok {[ 2 ]})].
Proof.
  apply (turn_board_is_what_is_left Choices.choices 9 choose_heur
           (replay [0; 0; 0; 0]) _ []).
  by vm_compute.
Defined.

(** X7. A game that returns a score has either emptied the board, and
    then no turn was stuck and the score is 0, or it has digits left, and
    then its last turn is the one stuck turn: the move generator had no
    move for these digits and the last roll, and the score is theirs and
    is not 0.  So the score is 0 exactly when the chosen moves cover
    1..9. *)
Theorem game_ends_empty_or_stuck
  (choices : gset Z → Z → list (gset Z)) (fuel : nat) (choose : chooser)
  (g g' : rng) (score : Z) :
  play choices fuel choose g = Ok (score, g') →
  ((score = 0 ∧ ∀ c r, Stuck c r ∉ play_trace choices fuel choose g)
   ∨ (score ≠ 0
      ∧ ∃ tr cur roll,
          play_trace choices fuel choose g = tr ++ [Stuck cur roll]
          ∧ cur = board ∖ removed tr
          ∧ cur ≠ ∅
          ∧ choices cur roll = []
          ∧ score = calc_score cur))
  ∧ (score = 0 ↔ board ⊆ removed (play_trace choices fuel choose g)).
Proof.
  intros Hplay.
  split; [|by eapply play_score_zero_iff].
  revert Hplay. unfold play, play_trace.
  destruct (play_loop choices fuel choose board g).2 as [[cur' g1]| |] eqn:E;
    [|done..].
  cbn [bind]. intros [= <- <-].
  pose proof (play_loop_removes choices fuel choose board g cur' g1 E) as Hcur.
  assert (cur' ⊆ board) as Hsub by set_solver.
  pose proof (calc_score_zero cur' Hsub) as Hzero.
  destruct (play_loop_final choices fuel choose board g cur' g1 E)
    as [[-> Hno]|[Hne (tr & roll & Htr & Hstuck)]].
  - left. split; [done|exact Hno].
  - right. split; [by rewrite Hzero|].
    exists tr, cur', roll. split_and!; try done.
    apply (play_loop_boards choices fuel choose board g tr
             (Stuck cur' roll) [] Htr).
Qed.

Lemma game_ends_empty_or_stuck_witness :
  let g := replay [0; 0; 0; 0] in
  ((13456789 = 0 ∧ ∀ c r, Stuck c r ∉ play_trace Choices.choices 9 choose_heur g)
   ∨ (13456789 ≠ 0
      ∧ ∃ tr cur roll,
          play_trace Choices.choices 9 choose_heur g = tr ++ [Stuck cur roll]
          ∧ cur = board ∖ removed tr
          ∧ cur ≠ ∅
          ∧ Choices.choices cur roll = []
          ∧ 13456789 = calc_score cur))
  ∧ (13456789 = 0
     ↔ board ⊆ removed (play_trace Choices.choices 9 choose_heur g)).
Proof.
  intros g.
  apply (game_ends_empty_or_stuck Choices.choices 9 choose_heur g
           (λ i, g (S (S (S (S i)))))).
  by vm_compute.
Defined.

(** ** The rolls and the digits removed *)

Section RollsPlayed.

Implicit Types (A B cur m : gset Z) (l : list Z) (tr : list event).

Lemma sum_list_Z_perm l1 l2 : l1 ≡ₚ l2 → sum_list_Z l1 = sum_list_Z l2.
Proof.
  unfold sum_list_Z. induction 1; cbn [foldr]; lia.
Qed.

Lemma sum_list_Z_app l1 l2 :
  sum_list_Z (l1 ++ l2) = sum_list_Z l1 + sum_list_Z l2.
Proof.
  unfold sum_list_Z. induction l1 as [|x l1 IH]; cbn [app foldr]; lia.
Qed.

Lemma set_sum_disj_union A B :
  A ## B → set_sum (A ∪ B) = set_sum A + set_sum B.
Proof.
  intros Hdisj. unfold set_sum. fold (sum_list_Z (elements (A ∪ B))).
  rewrite (sum_list_Z_perm _ _ (elements_disj_union A B Hdisj)).
  apply sum_list_Z_app.
Qed.

Lemma set_sum_lower A : A ⊆ board → Z.of_nat (size A) ≤ set_sum A.
Proof.
  intros Hsub.
  assert (Forall digit (elements A)) as Hdig.
  { apply list.Forall_forall. intros d Hd%elem_of_elements.
    by apply elem_of_board, Hsub. }
  unfold set_sum, size, set_size. cbn [compose].
  induction Hdig as [|d l Hd _ IH]; cbn [length foldr]; [lia|].
  unfold digit in Hd. lia.
Qed.

Lemma set_sum_board : set_sum board = 45.
Proof. reflexivity. Qed.

(** The digits taken off the board add up to at most 45, to 45 when the
    whole board was taken and then only. *)
Lemma set_sum_removed A :
  A ⊆ board → set_sum A ≤ 45 ∧ (set_sum A = 45 ↔ board ⊆ A).
Proof.
  intros Hsub.
  assert (board = A ∪ (board ∖ A)) as Hsplit.
  { apply set_eq. intros d. rewrite elem_of_union, elem_of_difference.
    destruct (decide (d ∈ A)); naive_solver. }
  pose proof set_sum_board as Hboard.
  rewrite Hsplit, set_sum_disj_union in Hboard by set_solver.
  pose proof (set_sum_lower (board ∖ A) ltac:(set_solver)) as Hrest.
  split; [lia|]. split.
  - intros H45.
    assert (board ∖ A = ∅) as Hempty
      by (apply leibniz_equiv, size_empty_inv; lia).
    intros d Hd. destruct (decide (d ∈ A)) as [|Hout]; [done|].
    exfalso. eapply (not_elem_of_empty (C := gset Z) d).
    rewrite <- Hempty. by apply elem_of_difference.
  - intros Hall. assert (A = board) as -> by set_solver. reflexivity.
Qed.

Lemma rolls_played_chose cur roll moves m tr :
  rolls_played (Chose cur roll moves (Ok m) :: tr) = roll + rolls_played tr.
Proof. reflexivity. Qed.

Variable choices : gset Z → Z → list (gset Z).
Variable choose : chooser.

(** Every move on offer is a subset of the board with sum the roll. *)
Hypothesis moves_sum :
  ∀ cur roll m, m ∈ choices cur roll → m ⊆ cur ∧ set_sum m = roll.

(** What the chooser returns is one of the moves it was given. *)
Hypothesis choose_member :
  ∀ cur moves g m g', choose cur moves g = Ok (m, g') → m ∈ moves.

Lemma play_loop_rolls_played fuel cur g :
  removed (play_loop choices fuel choose cur g).1 ⊆ cur
  ∧ set_sum (removed (play_loop choices fuel choose cur g).1)
    = rolls_played (play_loop choices fuel choose cur g).1.
Proof.
  revert cur g. induction fuel as [|fuel IH]; intros cur g.
  - cbn [play_loop]. case_decide; cbn [fst]; by rewrite removed_nil.
  - destruct (decide (cur = ∅)) as [->|Hne].
    { rewrite play_loop_empty. cbn [fst]. by rewrite removed_nil. }
    rewrite play_loop_step by done. cbn zeta.
    destruct (choices cur _) as [|m0 ms] eqn:Hmoves.
    { cbn [fst]. by rewrite removed_stuck, removed_nil. }
    destruct (choose cur (m0 :: ms) _) as [[move g3]| |] eqn:Hchoose; cbn [fst];
      [|done..].
    apply choose_member in Hchoose. rewrite <- Hmoves in Hchoose.
    apply moves_sum in Hchoose as [Hsub Hsum].
    destruct (IH (cur ∖ move) g3) as [IHsub IHsum].
    rewrite removed_chose, rolls_played_chose. split; [set_solver|].
    rewrite set_sum_disj_union by set_solver. lia.
Qed.

End RollsPlayed.

(** X8. Let every move that the move generator offers be a subset of the
    current board with sum the roll, and let the chooser return one of
    the moves it is given.  Then the digits removed in a game add up to
    the sum of the rolls for which a move was made, which is at most 45,
    and the score is 0 exactly when these rolls add up to 45. *)
Theorem rolls_played_add_up
  (choices : gset Z → Z → list (gset Z)) (choose : chooser) :
  (∀ cur roll m, m ∈ choices cur roll → m ⊆ cur ∧ set_sum m = roll) →
  (∀ cur moves g m g', choose cur moves g = Ok (m, g') → m ∈ moves) →
  ∀ (fuel : nat) (g : rng),
    rolls_played (play_trace choices fuel choose g)
    = set_sum (removed (play_trace choices fuel choose g))
    ∧ rolls_played (play_trace choices fuel choose g) ≤ 45
    ∧ ∀ score g',
        play choices fuel choose g = Ok (score, g') →
        score = 0 ↔ rolls_played (play_trace choices fuel choose g) = 45.
Proof.
  intros moves_sum choose_member fuel g.
  destruct (play_loop_rolls_played choices choose moves_sum choose_member
              fuel board g) as [Hsub Hsum].
  fold (play_trace choices fuel choose g) in Hsub, Hsum.
  destruct (set_sum_removed _ Hsub) as [Hle H45].
  rewrite <- Hsum. split; [done|]. split; [done|].
  intros score g' Hplay.
  rewrite (play_score_zero_iff choices fuel choose g score g' Hplay).
  by rewrite H45.
Qed.

Lemma choices_moves_sum cur roll m :
  m ∈ Choices.choices cur roll → m ⊆ cur ∧ set_sum m = roll.
Proof. rewrite elem_of_choices. tauto. Qed.

Lemma choose_heur_member cur moves g m g' :
  choose_heur cur moves g = Ok (m, g') → m ∈ moves.
Proof.
  destruct moves as [|m0 moves]; [done|].
  destruct (choose_heur_best cur (m0 :: moves) g) as (b & -> & [[Hin _] _]);
    [done|].
  by intros [= <- _].
Qed.

Lemma rolls_played_add_up_witness :
  let g := replay [0; 0; 5; 5; 3; 4] in
  rolls_played (play_trace Choices.choices 9 choose_heur g)
  = set_sum (removed (play_trace Choices.choices 9 choose_heur g))
  ∧ rolls_played (play_trace Choices.choices 9 choose_heur g) ≤ 45
  ∧ ∀ score g',
      play Choices.choices 9 choose_heur g = Ok (score, g') →
      score = 0 ↔ rolls_played (play_trace Choices.choices 9 choose_heur g) = 45.
Proof.
  intros g.
  apply (rolls_played_add_up Choices.choices choose_heur
           choices_moves_sum choose_heur_member 9 g).
Defined.

(** ** The bins in order *)

Section BinOrder.

Implicit Types (s b : Z).

Lemma hist_bin_mono s s' b b' :
  0 ≤ s ≤ s' → hist_bin s = Ok b → hist_bin s' = Ok b' → b ≤ b'.
Proof.
  intros [H0 Hle] Hb Hb'.
  destruct (hist_bin_spec s H0) as (b0 & Hb0 & _ & Hlo & _).
  destruct (hist_bin_spec s' ltac:(lia)) as (b1 & Hb1 & Hb1pos & _ & Hhi).
  rewrite Hb in Hb0. rewrite Hb' in Hb1. simplify_eq.
  assert ((s + 1) ^ nbins ≤ (s' + 1) ^ nbins)
    by (apply Z.pow_le_mono_l; lia).
  assert (10 ^ (9 * b0) < 10 ^ (9 * (b1 + 1))) as Hpow by lia.
  apply Z.pow_lt_mono_r_iff in Hpow; lia.
Qed.

Lemma hist_bin_zero s : 0 ≤ s → hist_bin s = Ok 0 ↔ s ≤ 1.
Proof.
  intros H0. split.
  - intros Hb. destruct (decide (s ≤ 1)) as [|Hbig]; [done|]. exfalso.
    assert (hist_bin 2 = Ok 1) as H2 by (by vm_compute).
    pose proof (hist_bin_mono 2 s 1 0 ltac:(lia) H2 Hb). lia.
  - intros H1. assert (s = 0 ∨ s = 1) as [-> | ->] by lia; by vm_compute.
Qed.

End BinOrder.

(** X9. The bin grows with the score: of two scores from 0 up the
    greater one has the greater or the same bin.  The bin 0 holds the
    scores 0 and 1 and no other, and for a score below 0 the logarithm
    raises ValueError. *)
Theorem hist_bin_grows_with_score :
  (∀ s s' b b' : Z,
     0 ≤ s ≤ s' → hist_bin s = Ok b → hist_bin s' = Ok b' → b ≤ b')
  ∧ (∀ s : Z, 0 ≤ s → hist_bin s = Ok 0 ↔ s ≤ 1)
  ∧ (∀ s : Z, s < 0 → hist_bin s = Raise ValueError).
Proof.
  split; [apply hist_bin_mono|]. split; [apply hist_bin_zero|].
  intros s Hs. unfold hist_bin. by rewrite decide_True by lia.
Qed.

Lemma hist_bin_grows_with_score_witness :
  5 ≤ 11
  ∧ (hist_bin 1 = Ok 0 ↔ 1 ≤ 1)
  ∧ hist_bin (-1) = Raise ValueError.
Proof.
  destruct hist_bin_grows_with_score as (Hmono & Hzero & Hneg).
  split; [|split].
  - apply (Hmono 259 134567); [lia | by vm_compute | by vm_compute].
  - apply Hzero. lia.
  - apply Hneg. lia.
Defined.

(** ** The statistics as functions of the scores *)

Section Aggregates.

Variable choices : gset Z → Z → list (gset Z).

Implicit Types (choose : chooser) (g : rng) (st : stats) (scores : list Z).

Lemma count_wins_cons s scores :
  count_wins (s :: scores)
  = (if decide (s = 0) then 1 else 0) + count_wins scores.
Proof.
  unfold count_wins. rewrite filter_cons.
  case_decide; cbn [length]; lia.
Qed.

Lemma count_bin_cons i s scores :
  count_bin i (s :: scores)
  = (if decide (hist_bin s = Ok (Z.of_nat i)) then 1 else 0)
    + count_bin i scores.
Proof.
  unfold count_bin. rewrite filter_cons.
  case_decide; cbn [length]; lia.
Qed.

Lemma count_bin_nonneg i scores : 0 ≤ count_bin i scores.
Proof. unfold count_bin. lia. Qed.

Lemma foldr_min_absorb a s scores :
  foldr Z.min (Z.min a s) scores = Z.min s (foldr Z.min a scores).
Proof. induction scores as [|x scores IH]; cbn [foldr]; lia. Qed.

Lemma foldr_max_absorb a s scores :
  foldr Z.max (Z.max a s) scores = Z.max s (foldr Z.max a scores).
Proof. induction scores as [|x scores IH]; cbn [foldr]; lia. Qed.

(** The least of a non-empty list of scores that stay below the start. *)
Lemma foldr_min_least_Z a scores :
  scores ≠ [] → Forall (λ s, s ≤ a) scores →
  foldr Z.min a scores ∈ scores
  ∧ ∀ s, s ∈ scores → foldr Z.min a scores ≤ s.
Proof.
  intros Hne Hall. induction Hall as [|x l Hx Hl IH]; [done|].
  cbn [foldr]. destruct l as [|y l].
  - cbn [foldr]. rewrite Z.min_l by done. split; [apply list_elem_of_here|].
    intros s ->%list_elem_of_singleton. lia.
  - destruct IH as [IHin IHle]; [done|]. split.
    + destruct (Z.min_spec x (foldr Z.min a (y :: l))) as [[_ ->]|[_ ->]].
      * apply list_elem_of_here.
      * by apply list_elem_of_further.
    + intros s [->|Hs]%elem_of_cons; [lia|]. specialize (IHle s Hs). lia.
Qed.

Lemma foldr_max_greatest_Z a scores :
  scores ≠ [] → Forall (λ s, a ≤ s) scores →
  foldr Z.max a scores ∈ scores
  ∧ ∀ s, s ∈ scores → s ≤ foldr Z.max a scores.
Proof.
  intros Hne Hall. induction Hall as [|x l Hx Hl IH]; [done|].
  cbn [foldr]. destruct l as [|y l].
  - cbn [foldr]. rewrite Z.max_l by done. split; [apply list_elem_of_here|].
    intros s ->%list_elem_of_singleton. lia.
  - destruct IH as [IHin IHle]; [done|]. split.
    + destruct (Z.max_spec x (foldr Z.max a (y :: l))) as [[_ ->]|[_ ->]].
      * by apply list_elem_of_further.
      * apply list_elem_of_here.
    + intros s [->|Hs]%elem_of_cons; [lia|]. specialize (IHle s Hs). lia.
Qed.

(** What the loop over the games leaves in the statistics. *)
Lemma games_exact n fuel choose st g st' g' scores :
  length (hist st) = Z.to_nat nbins →
  games choices n fuel choose st g = Ok (st', g', scores) →
  wins st' = wins st + count_wins scores
  ∧ mins st' = foldr Z.min (mins st) scores
  ∧ maxs st' = foldr Z.max (maxs st) scores
  ∧ tot st' = tot st + sum_list_Z scores
  ∧ length (hist st') = Z.to_nat nbins
  ∧ ∀ i, hist st' !! i = (λ c, c + count_bin i scores) <$> hist st !! i.
Proof.
  revert st g st' g' scores.
  induction n as [|n IH]; intros st g st' g' scores Hlen; cbn [games].
  - intros [= <- <- <-]. split_and!; try done.
    + unfold count_wins. cbn. lia.
    + unfold sum_list_Z. cbn. lia.
    + intros i. destruct (hist st !! i) as [c|]; cbn; [|done].
      f_equal. unfold count_bin. cbn. lia.
  - destruct (play choices fuel choose g) as [[score g1]| |] eqn:Hplay;
      [|done..].
    cbn [bind]. apply play_score_range in Hplay.
    destruct (hist_bin_score score Hplay) as (b & Hbin & Hb & _).
    destruct (tally_in_range st score b Hbin) as (x & Hx & ->).
    { rewrite Hlen. unfold nbins. lia. }
    cbn [bind].
    destruct (games choices n fuel choose _ g1) as [[[st2 g2] scores2]| |]
      eqn:Hgames; [|done..].
    cbn [bind]. intros [= <- <- <-].
    apply IH in Hgames as (Hw & Hmin & Hmax & Htot & Hlen2 & Hhist);
      [|cbn [hist]; by rewrite length_insert].
    cbn [wins mins maxs tot hist] in *.
    rewrite count_wins_cons. cbn [foldr]. fold (sum_list_Z scores2).
    split_and!.
    + rewrite Hw. repeat case_decide; lia.
    + by rewrite Hmin, foldr_min_absorb.
    + by rewrite Hmax, foldr_max_absorb.
    + rewrite Htot. unfold sum_list_Z. cbn [foldr]. lia.
    + done.
    + intros i. rewrite Hhist, count_bin_cons.
      destruct (decide (i = Z.to_nat b)) as [->|Hi].
      * rewrite list_lookup_insert_eq, Hx by (rewrite Hlen; unfold nbins; lia).
        cbn. rewrite Z2Nat.id by lia. rewrite decide_True by done.
        f_equal. lia.
      * rewrite list_lookup_insert_ne by done.
        rewrite decide_False by (rewrite Hbin; intros [= ->]; lia).
        destruct (hist st !! i) as [c|]; cbn; [f_equal; lia|done].
Qed.

(** The report of a run of at least one game, in terms of its scores. *)
Lemma main_exact fuel choose ngames g rep :
  1 ≤ ngames →
  main choices fuel choose ngames g = Ok rep →
  Z.of_nat (length (rep_scores rep)) = ngames
  ∧ Forall (λ s, 0 ≤ s ≤ 123456789) (rep_scores rep)
  ∧ rep_wins rep = count_wins (rep_scores rep)
  ∧ rep_min rep = foldr Z.min 123456789 (rep_scores rep)
  ∧ rep_max rep = foldr Z.max 0 (rep_scores rep)
  ∧ length (rep_hist rep) = 20%nat
  ∧ ∀ i, (i < 20)%nat → rep_hist rep !! i = Some (count_bin i (rep_scores rep)).
Proof.
  intros Hn Hmain.
  destruct (main_report choices fuel choose ngames g rep Hn Hmain)
    as (_ & _ & _ & _ & _ & _ & _ & Hlen & Hall).
  revert Hmain. unfold main.
  destruct (games choices _ fuel choose init_stats g)
    as [[[st g'] scores]| |] eqn:Hgames; [|done..].
  cbn [bind]. rewrite decide_False by lia. intros [= <-].
  cbn [rep_scores rep_wins rep_min rep_max rep_mean rep_hist] in *.
  apply games_exact in Hgames as (Hw & Hmin & Hmax & Htot & Hlenh & Hhist);
    [|done].
  cbn [wins mins maxs tot hist init_stats] in *.
  rewrite Z.add_0_l in Hw, Htot.
  split; [done|]. split; [done|]. split; [done|]. split; [done|].
  split; [done|]. split; [by rewrite Hlenh|].
  intros i Hi. rewrite Hhist.
  rewrite lookup_replicate_2 by (unfold nbins; lia). cbn. f_equal.
Qed.

End Aggregates.

(** X10. The report of a run of at least one game is computed from the
    scores of its games: there are as many scores as games, the wins are
    the scores equal to 0, and the minimum and the maximum are scores of
    the run, below and above all the others. *)
Theorem report_aggregates_scores
  (choices : gset Z → Z → list (gset Z)) (fuel : nat) (choose : chooser)
  (ngames : Z) (g : rng) (rep : report) :
  1 ≤ ngames →
  main choices fuel choose ngames g = Ok rep →
  Z.of_nat (length (rep_scores rep)) = ngames
  ∧ rep_wins rep = count_wins (rep_scores rep)
  ∧ rep_min rep ∈ rep_scores rep
  ∧ (∀ s, s ∈ rep_scores rep → rep_min rep ≤ s)
  ∧ rep_max rep ∈ rep_scores rep
  ∧ (∀ s, s ∈ rep_scores rep → s ≤ rep_max rep).
Proof.
  intros Hn Hmain.
  destruct (main_exact choices fuel choose ngames g rep Hn Hmain)
    as (Hlen & Hall & Hw & Hmin & Hmax & _).
  assert (rep_scores rep ≠ []) as Hne.
  { intros Hnil. rewrite Hnil in Hlen. cbn in Hlen. lia. }
  destruct (foldr_min_least_Z 123456789 (rep_scores rep) Hne) as [Hmin1 Hmin2].
  { eapply Forall_impl; [exact Hall|]. cbn. lia. }
  destruct (foldr_max_greatest_Z 0 (rep_scores rep) Hne) as [Hmax1 Hmax2].
  { eapply Forall_impl; [exact Hall|]. cbn. lia. }
  rewrite Hmin, Hmax.
  by split_and!.
Qed.

Lemma report_aggregates_scores_witness :
  ∃ rep,
    main Choices.choices 9 choose_heur 3
      (replay [0; 0; 5; 5; 3; 4; 2; 2; 2; 2; 2]) = Ok rep
    ∧ Z.of_nat (length (rep_scores rep)) = 3
    ∧ rep_wins rep = count_wins (rep_scores rep)
    ∧ rep_min rep ∈ rep_scores rep
    ∧ (∀ s, s ∈ rep_scores rep → rep_min rep ≤ s)
    ∧ rep_max rep ∈ rep_scores rep
    ∧ (∀ s, s ∈ rep_scores rep → s ≤ rep_max rep).
Proof.
  destruct (main_total Choices.choices 9 choose_heur 3
              (replay [0; 0; 5; 5; 3; 4; 2; 2; 2; 2; 2])
              choices_moves_ok choose_heur_ok ltac:(lia) ltac:(lia))
    as [rep E].
  exists rep. split; [exact E|].
  apply (report_aggregates_scores Choices.choices 9 choose_heur 3
           (replay [0; 0; 5; 5; 3; 4; 2; 2; 2; 2; 2]) rep); [lia|exact E].
Defined.

(** ** The histogram as a function of the scores *)

Section HistogramCounts.

Implicit Types (scores : list Z).

Lemma count_bin_low scores :
  Forall (λ s, 0 ≤ s ≤ 123456789) scores →
  count_bin 0 scores
  = count_wins scores + Z.of_nat (length (filter (λ s, s = 1) scores)).
Proof.
  induction 1 as [|s scores Hs _ IH]; [done|].
  rewrite count_bin_cons, count_wins_cons, filter_cons, IH.
  pose proof (hist_bin_zero s ltac:(lia)) as Hzero.
  change (Z.of_nat 0) with 0.
  destruct (decide (s ≤ 1)) as [Hlow|Hbig].
  - rewrite (decide_True (P := hist_bin s = Ok 0)) by by apply Hzero.
    destruct (decide (s = 0)) as [->|Hs0].
    + rewrite decide_False by done. lia.
    + rewrite decide_True by lia. cbn [length]. lia.
  - rewrite (decide_False (P := hist_bin s = Ok 0)) by by rewrite Hzero.
    rewrite (decide_False (P := s = 0)), (decide_False (P := s = 1)) by lia.
    lia.
Qed.

Lemma count_bin_high i scores :
  (18 ≤ i)%nat → Forall (λ s, 0 ≤ s ≤ 123456789) scores →
  count_bin i scores = 0.
Proof.
  intros Hi. induction 1 as [|s scores Hs _ IH]; [done|].
  rewrite count_bin_cons, IH.
  destruct (hist_bin_score s Hs) as (b & Hb & Hrange & _).
  rewrite decide_False; [done|]. rewrite Hb. intros [= ->]. lia.
Qed.

End HistogramCounts.

(** X11. After a run of at least one game the histogram has 20 counters
    and the counter [i] is the number of games whose score falls in the
    bin [i].  The counter 0 is the number of wins plus the number of
    games that ended with the score 1, and the counters 18 and 19 are 0. *)
Theorem histogram_counts_scores
  (choices : gset Z → Z → list (gset Z)) (fuel : nat) (choose : chooser)
  (ngames : Z) (g : rng) (rep : report) :
  1 ≤ ngames →
  main choices fuel choose ngames g = Ok rep →
  length (rep_hist rep) = 20%nat
  ∧ (∀ i, (i < 20)%nat →
          rep_hist rep !! i = Some (count_bin i (rep_scores rep)))
  ∧ rep_hist rep !! 0%nat
    = Some (rep_wins rep
            + Z.of_nat (length (filter (λ s, s = 1) (rep_scores rep))))
  ∧ rep_hist rep !! 18%nat = Some 0
  ∧ rep_hist rep !! 19%nat = Some 0.
Proof.
  intros Hn Hmain.
  destruct (main_exact choices fuel choose ngames g rep Hn Hmain)
    as (_ & Hall & Hw & _ & _ & Hlen & Hhist).
  split; [done|]. split; [done|].
  rewrite !Hhist by lia.
  rewrite (count_bin_low _ Hall), !count_bin_high, Hw by (done || lia).
  done.
Qed.

Lemma histogram_counts_scores_witness :
  ∃ rep,
    main Choices.choices 9 choose_heur 3
      (replay [0; 0; 5; 5; 3; 4; 2; 2; 2; 2; 2]) = Ok rep
    ∧ length (rep_hist rep) = 20%nat
    ∧ (∀ i, (i < 20)%nat →
            rep_hist rep !! i = Some (count_bin i (rep_scores rep)))
    ∧ rep_hist rep !! 0%nat
      = Some (rep_wins rep
              + Z.of_nat (length (filter (λ s, s = 1) (rep_scores rep))))
    ∧ rep_hist rep !! 18%nat = Some 0
    ∧ rep_hist rep !! 19%nat = Some 0.
Proof.
  destruct (main_total Choices.choices 9 choose_heur 3
              (replay [0; 0; 5; 5; 3; 4; 2; 2; 2; 2; 2])
              choices_moves_ok choose_heur_ok ltac:(lia) ltac:(lia))
    as [rep E].
  exists rep. split; [exact E|].
  apply (histogram_counts_scores Choices.choices 9 choose_heur 3
           (replay [0; 0; 5; 5; 3; 4; 2; 2; 2; 2; 2]) rep); [lia|exact E].
Defined.

(** X12. With no game to play the script fails or reports the initial
    values: for 0 games the mean raises ZeroDivisionError, and for a
    negative number of games no game is played and the report has no win,
    the minimum 123456789 above the maximum 0, the mean 0 and an empty
    histogram. *)
Theorem no_games_to_play
  (choices : gset Z → Z → list (gset Z)) (fuel : nat) (choose : chooser)
  (g : rng) :
  main choices fuel choose 0 g = Raise ZeroDivisionError
  ∧ ∀ ngames : Z,
      ngames < 0 →
      ∃ rep, main choices fuel choose ngames g = Ok rep
             ∧ rep_wins rep = 0
             ∧ rep_min rep = 123456789
             ∧ rep_max rep = 0
             ∧ (rep_mean rep == 0)%Q
             ∧ rep_hist rep = replicate 20 0
             ∧ rep_scores rep = [].
Proof.
  split; [done|]. intros ngames Hn. unfold main.
  replace (Z.to_nat ngames) with 0%nat by lia. cbn [games bind].
  rewrite decide_False by lia. eexists. split; [done|].
  cbn. by split_and!.
Qed.

Lemma no_games_to_play_witness :
  ∃ rep, main Choices.choices 9 choose_heur (-5) (replay []) = Ok rep
         ∧ rep_wins rep = 0
         ∧ rep_min rep = 123456789
         ∧ rep_max rep = 0
         ∧ (rep_mean rep == 0)%Q
         ∧ rep_hist rep = replicate 20 0
         ∧ rep_scores rep = [].
Proof.
  apply (proj2 (no_games_to_play Choices.choices 9 choose_heur (replay []))).
  lia.
Defined.

(** ** The bars of the histogram *)

Section Bars.

Implicit Types (ngames n c : Z) (l h : list Z).

Lemma bar_lengths_ok ngames l :
  ngames ≠ 0 →
  bar_lengths ngames l = Ok ((λ c, (10 * c * nbins) `div` ngames) <$> l).
Proof.
  intros Hn. induction l as [|c l IH]; [done|].
  cbn [bar_lengths]. unfold bar_length at 1. rewrite decide_False by done.
  cbn [bind]. by rewrite IH.
Qed.

Lemma bar_lengths_sum ngames l :
  0 < ngames → Forall (λ c, 0 ≤ c) l →
  Forall (λ n, 0 ≤ n) ((λ c, (10 * c * nbins) `div` ngames) <$> l)
  ∧ ngames * sum_list_Z ((λ c, (10 * c * nbins) `div` ngames) <$> l)
    ≤ 200 * sum_list_Z l.
Proof.
  intros Hn. unfold sum_list_Z, nbins.
  induction 1 as [|c l Hc _ [IHpos IHsum]]; cbn [fmap list_fmap foldr].
  - split; [constructor|lia].
  - pose proof (Z.mul_div_le (10 * c * 20) ngames Hn).
    pose proof (Z.div_pos (10 * c * 20) ngames ltac:(lia) Hn).
    split; [apply list.Forall_cons; split; [exact H0|exact IHpos]|]. nia.
Qed.

Lemma sum_list_Z_lookup l i x :
  Forall (λ c, 0 ≤ c) l → l !! i = Some x → x ≤ sum_list_Z l.
Proof.
  unfold sum_list_Z. intros Hall. revert i.
  induction Hall as [|c l Hc Hl IH]; intros [|i] Hi; try done;
    cbn [foldr].
  - injection Hi as ->.
    assert (0 ≤ foldr Z.add 0 l); [|lia].
    clear IH. induction Hl; cbn [foldr]; lia.
  - specialize (IH i Hi). lia.
Qed.

Lemma sum_list_Z_drop_1 l :
  Forall (λ c, 0 ≤ c) l → sum_list_Z (drop 1 l) ≤ sum_list_Z l.
Proof.
  unfold sum_list_Z. destruct 1 as [|c l Hc _]; [done|].
  change (drop 1 (c :: l)) with l. cbn [foldr]. lia.
Qed.

End Bars.

(** X13. After a run of at least one game the histogram display has 19
    lines, for the bins 1 to 19 (the bin 0, where the wins are, is not
    shown); the line of the bin [b] has [200 * count // ngames] asterisks
    for the [count] games of that bin, between 0 and 200, and all the
    lines together have at most 200 asterisks. *)
Theorem histogram_bars_bounded
  (choices : gset Z → Z → list (gset Z)) (fuel : nat) (choose : chooser)
  (ngames : Z) (g : rng) (rep : report) :
  1 ≤ ngames →
  main choices fuel choose ngames g = Ok rep →
  ∃ bars,
    histogram_bars ngames (rep_hist rep) = Ok bars
    ∧ length bars = 19%nat
    ∧ (∀ (i : nat) (n : Z),
         bars !! i = Some n →
         n = (200 * count_bin (S i) (rep_scores rep)) `div` ngames
         ∧ 0 ≤ n ≤ 200)
    ∧ sum_list_Z bars ≤ 200.
Proof.
  intros Hn Hmain.
  destruct (main_exact choices fuel choose ngames g rep Hn Hmain)
    as (_ & _ & _ & _ & _ & Hlen & Hhist).
  destruct (main_report choices fuel choose ngames g rep Hn Hmain)
    as (st & (_ & _ & _ & _ & _ & Hsum) & _ & _ & _ & _ & Hst & _).
  rewrite <- Hst in Hsum. change (sum_list_Z (rep_hist rep) = ngames) in Hsum.
  assert (Forall (λ c, 0 ≤ c) (rep_hist rep)) as Hpos.
  { apply Forall_lookup. intros i c Hi.
    rewrite Hhist in Hi by (apply lookup_lt_Some in Hi; lia).
    injection Hi as <-. apply count_bin_nonneg. }
  assert (Forall (λ c, 0 ≤ c) (drop 1 (rep_hist rep))) as Hpos1
    by by apply Forall_drop.
  destruct (bar_lengths_sum ngames _ ltac:(lia) Hpos1) as [Hbars Hbound].
  pose proof (sum_list_Z_drop_1 _ Hpos) as Hdrop.
  set (bars := (λ c, (10 * c * nbins) `div` ngames) <$> drop 1 (rep_hist rep))
    in *.
  assert (sum_list_Z bars ≤ 200) as Htotal by nia.
  exists bars. unfold histogram_bars.
  split; [apply bar_lengths_ok; lia|].
  split; [unfold bars; rewrite length_fmap, length_drop, Hlen; done|].
  split; [|done].
  intros i n Hi. split.
  - unfold bars in Hi.
    apply list_lookup_fmap_Some_1 in Hi as (c & -> & Hc).
    rewrite lookup_drop in Hc. cbn in Hc.
    rewrite Hhist in Hc by (apply lookup_lt_Some in Hc; lia).
    injection Hc as <-. unfold nbins. f_equal. lia.
  - pose proof (sum_list_Z_lookup bars i n Hbars Hi).
    rewrite list.Forall_forall in Hbars.
    specialize (Hbars n (list_elem_of_lookup_2 _ _ _ Hi)). lia.
Qed.

Lemma histogram_bars_bounded_witness :
  ∃ rep bars,
    main Choices.choices 9 choose_heur 3
      (replay [0; 0; 5; 5; 3; 4; 2; 2; 2; 2; 2]) = Ok rep
    ∧ histogram_bars 3 (rep_hist rep) = Ok bars
    ∧ length bars = 19%nat
    ∧ (∀ (i : nat) (n : Z),
         bars !! i = Some n →
         n = (200 * count_bin (S i) (rep_scores rep)) `div` 3
         ∧ 0 ≤ n ≤ 200)
    ∧ sum_list_Z bars ≤ 200.
Proof.
  destruct (main_total Choices.choices 9 choose_heur 3
              (replay [0; 0; 5; 5; 3; 4; 2; 2; 2; 2; 2])
              choices_moves_ok choose_heur_ok ltac:(lia) ltac:(lia))
    as [rep E].
  destruct (histogram_bars_bounded Choices.choices 9 choose_heur 3
              (replay [0; 0; 5; 5; 3; 4; 2; 2; 2; 2; 2]) rep ltac:(lia) E)
    as (bars & Hbars).
  exists rep, bars. split; [exact E|exact Hbars].
Defined.

(** ** The choosers on offer *)

Section Table.

Lemma select_chooser_Some arg c :
  select_chooser arg = Some c ↔
  (default "heur" arg = "heur" ∧ c = choose_heur)
  ∨ (default "heur" arg = "random" ∧ c = choose_random).
Proof.
  unfold select_chooser, choosers.
  rewrite lookup_insert_Some, lookup_singleton_Some. split.
  - intros [[<- <-]|[Hne [<- <-]]]; auto.
  - intros [[-> ->]|[-> ->]]; auto.
Qed.

End Table.

(** X14. The option of the command line selects a chooser for the names
    "heur" and "random" and for no other name, and "heur" when it is left
    out.  Each chooser that can be selected returns, from a non-empty list
    of moves, one of the moves of the list; so with it a run of at least
    one game reports, when the move generator offers non-empty subsets of
    the board. *)
Theorem selected_chooser_picks_a_move :
  select_chooser None = Some choose_heur
  ∧ (∀ name : string,
       is_Some (select_chooser (Some name)) ↔ name = "heur" ∨ name = "random")
  ∧ (∀ (arg : option string) (c : chooser),
       select_chooser arg = Some c →
       (∀ cur moves g, moves ≠ [] →
          ∃ m g', c cur moves g = Ok (m, g') ∧ m ∈ moves)
       ∧ ∀ (choices : gset Z → Z → list (gset Z)) (fuel : nat)
           (ngames : Z) (g : rng),
           (∀ cur roll m, m ∈ choices cur roll → m ≠ ∅ ∧ m ⊆ cur) →
           (9 ≤ fuel)%nat → 1 ≤ ngames →
           ∃ rep, main choices fuel c ngames g = Ok rep).
Proof.
  split; [done|]. split.
  - intros name. split.
    + intros [c Hc]. apply select_chooser_Some in Hc. cbn in Hc. tauto.
    + intros [-> | ->]; eexists; apply select_chooser_Some; cbn; eauto.
  - intros arg c Hc.
    assert (∀ cur moves g, moves ≠ [] →
              ∃ m g', c cur moves g = Ok (m, g') ∧ m ∈ moves) as Hpick.
    { apply select_chooser_Some in Hc as [[_ ->]|[_ ->]];
        [apply choose_heur_ok | apply choose_random_ok]. }
    split; [done|].
    intros choices fuel ngames g Hmoves Hfuel Hn. by apply main_total.
Qed.

Lemma selected_chooser_picks_a_move_witness :
  (∀ cur moves g, moves ≠ [] →
     ∃ m g', choose_random cur moves g = Ok (m, g') ∧ m ∈ moves)
  ∧ ∀ (choices : gset Z → Z → list (gset Z)) (fuel : nat)
      (ngames : Z) (g : rng),
      (∀ cur roll m, m ∈ choices cur roll → m ≠ ∅ ∧ m ⊆ cur) →
      (9 ≤ fuel)%nat → 1 ≤ ngames →
      ∃ rep, main choices fuel choose_random ngames g = Ok rep.
Proof.
  apply (proj2 (proj2 selected_chooser_picks_a_move) (Some "random")).
  reflexivity.
Defined.
